(** * typed-input-forms: validator chain, field projection and form state

    A shallow embedding of [core/src/input-form-validator.ts],
    [core/src/input-form-field.ts], [core/src/utils.ts] and of the
    [getValidValue]/[invalid] members of [react/src/input-form-state.hook.ts],
    followed by the properties proved about them.

    Conventions of the embedding.
    - Field names and error messages are [string]s: they are only compared
      and used as property keys.  Objects used as maps (the form value, the
      error map, the accessor cache) are finite maps over their own string
      keys, read with [undefined] as the default; a field is not named
      after a member every object inherits ([constructor], [toString], ...).
      Field names that are numbers, which [keyof FormValue] admits as well,
      are the subject of the module [Keyed].
    - String field values are sequences of UTF-16 code units ([JsString]).
    - A JavaScript [throw] is the [Throw] constructor of [Completion]; code
      that cannot throw is a plain function.  Caller-supplied validation
      callbacks and conditions may throw, so they return a [Completion];
      the two functions given to [map] are total. *)

From Stdlib Require Import ZArith QArith Qround String Ascii List DecimalString.
From stdpp Require Import base option list gmap strings fin_maps.

#[local] Close Scope Q_scope.
#[local] Open Scope Z_scope.
#[local] Open Scope string_scope.
#[local] Open Scope list_scope.

(* ===================================================================== *)
(** ** JavaScript values *)
(* ===================================================================== *)

(** Numbers: the two infinities, NaN, and the finite values.  Every finite
    double is a rational, and the comparisons and [Math.floor] used by the
    validators are exact on doubles, so rationals carry them faithfully. *)
Inductive JsNumber : Type :=
| NaN
| PosInfinity
| NegInfinity
| Finite (q : Q).

(** Strings as sequences of UTF-16 code units. *)
Definition JsString : Type := list N.

Fixpoint js (s : string) : JsString :=
  match s with
  | EmptyString => []
  | String c rest => N_of_ascii c :: js rest
  end.

(** Values a form field can hold.  Arrays, promises and other objects have an
    identity ([===] on them is reference equality). *)
#[warnings="-register-all"]
Inductive JsValue : Type :=
| JUndefined
| JNull
| JBoolean (b : bool)
| JNumber (n : JsNumber)
| JString (s : JsString)
| JArray (id : N) (items : list JsValue)
| JPromise (id : N)
| JObject (id : N).

Inductive JsError : Type :=
| SyntaxError (message : string)
| TypeError (message : string)
| Error (message : string).

(** Outcome of running a piece of JavaScript: a value or a thrown error. *)
Inductive Completion (A : Type) : Type :=
| Normal (a : A)
| Throw (e : JsError).
Arguments Normal {A} a.
Arguments Throw {A} e.

#[global] Instance Completion_ret : MRet Completion := fun A a => Normal a.
#[global] Instance Completion_bind : MBind Completion := fun A B f m =>
  match m with
  | Normal a => f a
  | Throw e => Throw e
  end.

(** [try { body } catch (_) { handler }] *)
Definition try_catch {A} (body : Completion A) (handler : A) : A :=
  match body with
  | Normal a => a
  | Throw _ => handler
  end.

Definition returns {A} (c : Completion A) : Prop := ∃ a, c = Normal a.
Definition throws {A} (c : Completion A) : Prop := ∃ e, c = Throw e.

(** *** Numbers *)

Definition num_eqb (a b : JsNumber) : bool :=
  match a, b with
  | PosInfinity, PosInfinity => true
  | NegInfinity, NegInfinity => true
  | Finite p, Finite q => Qeq_bool p q
  | _, _ => false
  end.

(** [a < b] *)
Definition num_ltb (a b : JsNumber) : bool :=
  match a, b with
  | NaN, _ | _, NaN => false
  | _, NegInfinity => false
  | NegInfinity, _ => true
  | PosInfinity, _ => false
  | _, PosInfinity => true
  | Finite p, Finite q => Qle_bool p q && negb (Qeq_bool p q)
  end.

(** [a <= b] *)
Definition num_leb (a b : JsNumber) : bool :=
  match a, b with
  | NaN, _ | _, NaN => false
  | _, _ => num_ltb a b || num_eqb a b
  end.

Definition Math_floor (a : JsNumber) : JsNumber :=
  match a with
  | Finite q => Finite (inject_Z (Qfloor q))
  | other => other
  end.

Definition num_of_nat (n : nat) : JsNumber := Finite (inject_Z (Z.of_nat n)).

(** *** Strings *)

Definition str_eqb (a b : JsString) : bool := bool_decide (a = b).

(** [WhiteSpace] and [LineTerminator] code units, the ones [trim] strips. *)
Definition isWhiteSpace (c : N) : bool :=
  match c with
  | 9 | 10 | 11 | 12 | 13 | 32 | 160 | 5760
  | 8192 | 8193 | 8194 | 8195 | 8196 | 8197 | 8198 | 8199 | 8200 | 8201 | 8202
  | 8232 | 8233 | 8239 | 8287 | 12288 | 65279 => true
  | _ => false
  end%N.

Fixpoint trimStart (s : JsString) : JsString :=
  match s with
  | [] => []
  | c :: rest => if isWhiteSpace c then trimStart rest else s
  end.

Definition trimEnd (s : JsString) : JsString := rev (trimStart (rev s)).

(** [String.prototype.trim] *)
Definition trim (s : JsString) : JsString := trimEnd (trimStart s).

(** *** Equality and type tests *)

(** [a === b] *)
Definition strict_equals (a b : JsValue) : bool :=
  match a, b with
  | JUndefined, JUndefined => true
  | JNull, JNull => true
  | JBoolean x, JBoolean y => bool_decide (x = y)
  | JNumber x, JNumber y => num_eqb x y
  | JString x, JString y => str_eqb x y
  | JArray x _, JArray y _ => bool_decide (x = y)
  | JPromise x, JPromise y => bool_decide (x = y)
  | JObject x, JObject y => bool_decide (x = y)
  | _, _ => false
  end.

(** utils.ts: [isArray] *)
Definition isArray (a : JsValue) : bool :=
  match a with
  | JArray _ _ => true
  | _ => false
  end.

(** utils.ts: [isObject]: [typeof a === 'object' && !Array.isArray(a)] *)
Definition isObject (a : JsValue) : bool :=
  match a with
  | JNull | JPromise _ | JObject _ => true
  | _ => false
  end.

(** utils.ts: [isNonNullObject] *)
Definition isNonNullObject (a : JsValue) : bool :=
  isObject a && negb (strict_equals a JNull).

(** utils.ts: [isPromise]: a non-null object whose tag is [[object Promise]] *)
Definition isPromise (p : JsValue) : bool :=
  isNonNullObject p && match p with JPromise _ => true | _ => false end.

(* ===================================================================== *)
(** ** Regular expressions (the host's [RegExp]) *)
(* ===================================================================== *)

(** [pattern] hands a string to [new RegExp] and calls [test] on the result.
    The constructor and [test] are modelled for the pattern grammar without
    flags: alternation, grouping, look-ahead, the quantifiers, the
    assertions, character classes and the class escapes.  Back-references,
    named groups, look-behind and the [\c], [\x], [\u], [\k] escapes are
    outside the model; [RegExp_new] refuses them as it refuses malformed
    patterns. *)

Inductive ClassEscape : Type :=
| EscDigit | EscSpace | EscWord.

Inductive ClassItem : Type :=
| ItemChar (c : N)
| ItemRange (lo hi : N)
| ItemEscape (negated : bool) (e : ClassEscape).

Inductive RegExp : Type :=
| REmpty
| RChar (c : N)
| RAny
| RClass (negated : bool) (items : list ClassItem)
| RSeq (a b : RegExp)
| RAlt (a b : RegExp)
| RRepeat (r : RegExp) (min : nat) (max : option nat)
| RLookahead (negated : bool) (r : RegExp)
| RStart
| REnd
| RWordBoundary (negated : bool).

Definition isChar (c : N) (a : ascii) : bool := N.eqb c (N_of_ascii a).

Definition isLineTerminator (c : N) : bool :=
  match c with
  | 10 | 13 | 8232 | 8233 => true
  | _ => false
  end%N.

Definition isDigit (c : N) : bool := (48 <=? c)%N && (c <=? 57)%N.

Definition isWordChar (c : N) : bool :=
  isDigit c || ((65 <=? c)%N && (c <=? 90)%N)
  || ((97 <=? c)%N && (c <=? 122)%N) || (c =? 95)%N.

Definition escape_matches (e : ClassEscape) (c : N) : bool :=
  match e with
  | EscDigit => isDigit c
  | EscSpace => isWhiteSpace c
  | EscWord => isWordChar c
  end.

Definition item_matches (c : N) (i : ClassItem) : bool :=
  match i with
  | ItemChar x => N.eqb c x
  | ItemRange lo hi => (lo <=? c)%N && (c <=? hi)%N
  | ItemEscape negated e => xorb negated (escape_matches e c)
  end.

Definition option_pred (o : option nat) : option nat := pred <$> o.

(** Backtracking matcher in continuation style: [rmatch r prev s k] tries to
    match [r] on a prefix of [s] ([prev] is the code unit before it) and
    hands the rest to [k]. *)
Fixpoint rmatch (r : RegExp) (prev : option N) (s : JsString)
    (k : option N → JsString → bool) : bool :=
  match r with
  | REmpty => k prev s
  | RChar c =>
      match s with
      | x :: rest => N.eqb x c && k (Some x) rest
      | [] => false
      end
  | RAny =>
      match s with
      | x :: rest => negb (isLineTerminator x) && k (Some x) rest
      | [] => false
      end
  | RClass negated items =>
      match s with
      | x :: rest => xorb negated (existsb (item_matches x) items) && k (Some x) rest
      | [] => false
      end
  | RSeq a b => rmatch a prev s (fun p rest => rmatch b p rest k)
  | RAlt a b => rmatch a prev s k || rmatch b prev s k
  | RRepeat body lo hi =>
      (fix loop (fuel lo : nat) (hi : option nat) (prev : option N) (s : JsString)
         {struct fuel} : bool :=
         match fuel with
         | O => false
         | S fuel =>
             match lo with
             | S lo' =>
                 rmatch body prev s (fun p rest => loop fuel lo' (option_pred hi) p rest)
             | O =>
                 k prev s
                 || match hi with
                    | Some O => false
                    | _ =>
                        rmatch body prev s (fun p rest =>
                          (length rest <? length s)%nat
                          && loop fuel O (option_pred hi) p rest)
                    end
             end
         end) (S (lo + length s)) lo hi prev s
  | RLookahead negated body =>
      xorb negated (rmatch body prev s (fun _ _ => true)) && k prev s
  | RStart =>
      match prev with
      | None => k prev s
      | Some _ => false
      end
  | REnd =>
      match s with
      | [] => k prev s
      | _ :: _ => false
      end
  | RWordBoundary negated =>
      let before := from_option isWordChar false prev in
      let after := from_option isWordChar false (head s) in
      xorb negated (xorb before after) && k prev s
  end.

Fixpoint rsearch (r : RegExp) (prev : option N) (s : JsString) : bool :=
  rmatch r prev s (fun _ _ => true)
  || match s with
     | [] => false
     | x :: rest => rsearch r (Some x) rest
     end.

(** [RegExp.prototype.test]: is there a match starting anywhere in [s]? *)
Definition RegExp_test (r : RegExp) (s : JsString) : bool := rsearch r None s.

(** *** Parsing a pattern *)

Definition syntax_error {A} (message : string) : Completion A :=
  Throw (SyntaxError message).

Fixpoint parseDigits (acc : nat) (s : JsString) : nat * JsString :=
  match s with
  | c :: rest =>
      if isDigit c then parseDigits (10 * acc + N.to_nat (c - 48)) rest
      else (acc, s)
  | [] => (acc, s)
  end.

(** A braced quantifier [{n}], [{n,}] or [{n,m}] at the head of [s] (after the
    opening brace), if there is one. *)
Definition parseBraces (s : JsString) : option (nat * option nat * JsString) :=
  match s with
  | d :: _ =>
      if isDigit d then
        let '(lo, rest) := parseDigits 0 s in
        match rest with
        | c :: rest1 =>
            if isChar c "}" then Some (lo, Some lo, rest1)
            else if isChar c "," then
              match rest1 with
              | e :: rest2 =>
                  if isChar e "}" then Some (lo, None, rest2)
                  else if isDigit e then
                    let '(hi, rest3) := parseDigits 0 rest1 in
                    match rest3 with
                    | f :: rest4 => if isChar f "}" then Some (lo, Some hi, rest4) else None
                    | [] => None
                    end
                  else None
              | [] => None
              end
            else None
        | [] => None
        end
      else None
  | [] => None
  end.

(** The optional quantifier after an atom, and the optional [?] after it
    (greedy or lazy, [test] answers the same). *)
Definition parseQuantifier (atom : RegExp) (s : JsString)
    : Completion (RegExp * JsString) :=
  let lazy (rest : JsString) : JsString :=
    match rest with
    | c :: rest' => if isChar c "?" then rest' else rest
    | [] => rest
    end in
  match s with
  | c :: rest =>
      if isChar c "*" then mret (RRepeat atom 0 None, lazy rest)
      else if isChar c "+" then mret (RRepeat atom 1 None, lazy rest)
      else if isChar c "?" then mret (RRepeat atom 0 (Some 1%nat), lazy rest)
      else if isChar c "{" then
        match parseBraces rest with
        | Some (lo, hi, rest') =>
            if from_option (fun h => (h <? lo)%nat) false hi
            then syntax_error "numbers out of order in {} quantifier"
            else mret (RRepeat atom lo hi, lazy rest')
        | None => mret (atom, s)
        end
      else mret (atom, s)
  | [] => mret (atom, s)
  end.

(** What follows a backslash, outside ([inClass = false]) or inside a class. *)
Definition parseEscape (inClass : bool) (s : JsString)
    : Completion ((RegExp + ClassItem) * JsString) :=
  match s with
  | [] => syntax_error "backslash at end of pattern"
  | c :: rest =>
      let item (i : ClassItem) : Completion ((RegExp + ClassItem) * JsString) :=
        mret (inr i, rest) in
      if isChar c "d" then item (ItemEscape false EscDigit)
      else if isChar c "D" then item (ItemEscape true EscDigit)
      else if isChar c "s" then item (ItemEscape false EscSpace)
      else if isChar c "S" then item (ItemEscape true EscSpace)
      else if isChar c "w" then item (ItemEscape false EscWord)
      else if isChar c "W" then item (ItemEscape true EscWord)
      else if isChar c "t" then item (ItemChar 9)
      else if isChar c "n" then item (ItemChar 10)
      else if isChar c "v" then item (ItemChar 11)
      else if isChar c "f" then item (ItemChar 12)
      else if isChar c "r" then item (ItemChar 13)
      else if isChar c "b" then
        if inClass then item (ItemChar 8) else mret (inl (RWordBoundary false), rest)
      else if isChar c "B" then
        if inClass then item (ItemChar 66) else mret (inl (RWordBoundary true), rest)
      else if isChar c "0" then
        match rest with
        | d :: _ => if isDigit d then syntax_error "octal escape: outside the model"
                    else item (ItemChar 0)
        | [] => item (ItemChar 0)
        end
      else if isDigit c then syntax_error "back-reference: outside the model"
      else if isChar c "c" || isChar c "x" || isChar c "u" || isChar c "k"
      then syntax_error "escape: outside the model"
      else item (ItemChar c)
  end.

Definition parseClassAtom (c : N) (rest : JsString) : Completion (ClassItem * JsString) :=
  if N.eqb c 92 then
    '(r, rest') ← parseEscape true rest;
    match r with
    | inr i => mret (i, rest')
    | inl _ => syntax_error "invalid escape in character class"
    end
  else mret (ItemChar c, rest).

(** The items of a character class up to its closing bracket. *)
Fixpoint parseClassItems (fuel : nat) (acc : list ClassItem) (s : JsString)
    : Completion (list ClassItem * JsString) :=
  match fuel with
  | O => syntax_error "unterminated character class"
  | S fuel =>
      match s with
      | [] => syntax_error "unterminated character class"
      | c :: rest =>
          if isChar c "]" then mret (rev acc, rest)
          else
            '(first, rest1) ← parseClassAtom c rest;
            match rest1 with
            | d :: e :: rest2 =>
                if isChar d "-" && negb (isChar e "]") then
                  '(last, rest3) ← parseClassAtom e rest2;
                  match first, last with
                  | ItemChar lo, ItemChar hi =>
                      if (hi <? lo)%N
                      then syntax_error "range out of order in character class"
                      else parseClassItems fuel (ItemRange lo hi :: acc) rest3
                  | _, _ =>
                      parseClassItems fuel (last :: ItemChar 45 :: first :: acc) rest3
                  end
                else parseClassItems fuel (first :: acc) rest1
            | _ => parseClassItems fuel (first :: acc) rest1
            end
      end
  end.

Definition parseClass (s : JsString) : Completion (RegExp * JsString) :=
  let '(negated, body) :=
    match s with
    | c :: rest => if isChar c "^" then (true, rest) else (false, s)
    | [] => (false, s)
    end in
  '(items, rest) ← parseClassItems (S (length body)) [] body;
  mret (RClass negated items, rest).

(** Recursive descent over Disjunction, Alternative and Term.  Every call
    spends one unit of [fuel]; [RegExp_new] supplies enough for the whole
    pattern. *)
Fixpoint parseDisjunction (fuel : nat) (s : JsString) : Completion (RegExp * JsString) :=
  match fuel with
  | O => syntax_error "pattern too long"
  | S fuel =>
      '(first, rest) ← parseAlternative fuel s;
      match rest with
      | c :: rest' =>
          if isChar c "|" then
            '(second, rest'') ← parseDisjunction fuel rest';
            mret (RAlt first second, rest'')
          else mret (first, rest)
      | [] => mret (first, rest)
      end
  end
with parseAlternative (fuel : nat) (s : JsString) : Completion (RegExp * JsString) :=
  match fuel with
  | O => syntax_error "pattern too long"
  | S fuel =>
      match s with
      | [] => mret (REmpty, s)
      | c :: _ =>
          if isChar c "|" || isChar c ")" then mret (REmpty, s)
          else
            '(term, rest) ← parseTerm fuel s;
            '(more, rest') ← parseAlternative fuel rest;
            mret (RSeq term more, rest')
      end
  end
with parseTerm (fuel : nat) (s : JsString) : Completion (RegExp * JsString) :=
  match fuel with
  | O => syntax_error "pattern too long"
  | S fuel =>
      let group (wrap : RegExp → RegExp) (inner : JsString) :=
        '(body, rest) ← parseDisjunction fuel inner;
        match rest with
        | c :: rest' =>
            if isChar c ")" then parseQuantifier (wrap body) rest'
            else syntax_error "unterminated group"
        | [] => syntax_error "unterminated group"
        end in
      match s with
      | [] => syntax_error "unexpected end of pattern"
      | c :: rest =>
          if isChar c "^" then mret (RStart, rest)
          else if isChar c "$" then mret (REnd, rest)
          else if isChar c "(" then
            match rest with
            | q :: k :: rest2 =>
                if isChar q "?" then
                  if isChar k ":" then group id rest2
                  else if isChar k "=" then group (RLookahead false) rest2
                  else if isChar k "!" then group (RLookahead true) rest2
                  else syntax_error "invalid group"
                else group id rest
            | _ => group id rest
            end
          else if isChar c ")" then syntax_error "unmatched )"
          else if isChar c "*" || isChar c "+" || isChar c "?"
          then syntax_error "nothing to repeat"
          else if isChar c "{" then
            match parseBraces rest with
            | Some _ => syntax_error "nothing to repeat"
            | None => parseQuantifier (RChar c) rest
            end
          else if isChar c "[" then
            '(class, rest') ← parseClass rest;
            parseQuantifier class rest'
          else if N.eqb c 92 then
            '(r, rest') ← parseEscape false rest;
            match r with
            | inl (RWordBoundary negated) => mret (RWordBoundary negated, rest')
            | inl other => parseQuantifier other rest'
            | inr (ItemChar x) => parseQuantifier (RChar x) rest'
            | inr i => parseQuantifier (RClass false [i]) rest'
            end
          else if isChar c "." then parseQuantifier RAny rest
          else parseQuantifier (RChar c) rest
      end
  end.

(** [new RegExp(pattern)] for a string [pattern]: the compiled expression, or
    a thrown [SyntaxError]. *)
Definition RegExp_new (pattern : JsString) : Completion RegExp :=
  '(r, rest) ← parseDisjunction (4 * length pattern + 4) pattern;
  match rest with
  | [] => mret r
  | _ :: _ => syntax_error "unmatched )"
  end.

(** The literal [/[^\s@]+@([^\s@.,]+\.)+[^\s@.,]{2,}/] of [validMail]. *)
Definition mailRegExp : RegExp :=
  let local := RClass true [ItemEscape false EscSpace; ItemChar 64] in
  let label := RClass true [ItemEscape false EscSpace; ItemChar 64; ItemChar 46; ItemChar 44] in
  RSeq (RRepeat local 1 None)
    (RSeq (RChar 64)
       (RSeq (RRepeat (RSeq (RRepeat label 1 None) (RSeq (RChar 46) REmpty)) 1 None)
          (RSeq (RRepeat label 2 None) REmpty))).

(* ===================================================================== *)
(** ** Form values and error maps *)
(* ===================================================================== *)

(** A form value is an object: an identity and its own properties.  A spread
    copy has the same properties and a new identity. *)
Record FormValue : Type := {
  obj_id : N;
  obj_props : gmap string JsValue
}.

(** [value[field]] *)
Definition get_field (value : FormValue) (field : string) : JsValue :=
  default JUndefined (obj_props value !! field).

(** [Partial<Record<keyof FormValue, string | undefined>>]: a key may be
    absent, or present with [undefined] ([Some None]) or with a message. *)
Abbreviation ErrorMap := (gmap string (option string)).

(** [errors[field]] *)
Definition get_error (errors : ErrorMap) (field : string) : option string :=
  default None (errors !! field).

(** utils.ts: [keysOf].  Only membership in the result is ever used. *)
Definition keysOf {A} (object : gmap string A) : list string :=
  (map_to_list object).*1.

(** [array.includes(x)] on an array of field names *)
Definition includes (array : list string) (x : string) : bool :=
  bool_decide (x ∈ array).

(* ===================================================================== *)
(** ** input-form-validator.ts: the validator chain *)
(* ===================================================================== *)

Record InputFieldValidator : Type := {
  error : string;
  validate : JsValue → FormValue → Completion bool
}.

Inductive InputFormValidator : Type :=
| NoopInputFormValidator
| ChildInputFormValidator (validatedField : string)
    (validator : InputFieldValidator) (parent : InputFormValidator)
| ConditionalInputFormValidator (predicate : FormValue → Completion bool)
    (conditionalValidator parent : InputFormValidator).

Fixpoint isFieldValid (this : InputFormValidator) (field : string) (value : FormValue)
    : Completion bool :=
  match this with
  | NoopInputFormValidator => mret true
  | ChildInputFormValidator validatedField validator parent =>
      parentValid ← isFieldValid parent field value;
      if negb parentValid then mret false
      else if negb (bool_decide (validatedField = field)) then mret true
      else validate validator (get_field value field) value
  | ConditionalInputFormValidator predicate conditionalValidator parent =>
      parentValid ← isFieldValid parent field value;
      if negb parentValid then mret false
      else (
        holds ← predicate value;
        if (holds : bool) then isFieldValid conditionalValidator field value
        else mret true)
  end.

(** [if (!fields.includes(f)) fields.push(f)] *)
Definition push_absent (fields : list string) (f : string) : list string :=
  if includes fields f then fields else fields ++ [f].

Fixpoint getValidatedFields (this : InputFormValidator) : list string :=
  match this with
  | NoopInputFormValidator => []
  | ChildInputFormValidator validatedField _ parent =>
      let validatedFields := getValidatedFields parent in
      if includes validatedFields validatedField then validatedFields
      else validatedFields ++ [validatedField]
  | ConditionalInputFormValidator _ conditionalValidator parent =>
      foldl push_absent (getValidatedFields parent)
        (getValidatedFields conditionalValidator)
  end.

(** The [forEach] of the conditional validator: copy the entries of
    [conditionalFieldErrors] for the given fields into [fieldErrors]. *)
Definition copy_errors (conditionalFieldErrors : ErrorMap) (fields : list string)
    (fieldErrors : ErrorMap) : ErrorMap :=
  foldl (fun acc field => <[field := get_error conditionalFieldErrors field]> acc)
    fieldErrors fields.

Fixpoint getFieldErrors (this : InputFormValidator) (value : FormValue)
    : Completion ErrorMap :=
  match this with
  | NoopInputFormValidator => mret ∅
  | ChildInputFormValidator validatedField validator parent =>
      fieldErrors ← getFieldErrors parent value;
      if includes (keysOf fieldErrors) validatedField then mret fieldErrors
      else (
        valid ← validate validator (get_field value validatedField) value;
        if negb valid then mret (<[validatedField := Some (error validator)]> fieldErrors)
        else mret fieldErrors)
  | ConditionalInputFormValidator predicate conditionalValidator parent =>
      fieldErrors ← getFieldErrors parent value;
      let existingFieldsWithErrors := keysOf fieldErrors in
      match find (fun field => negb (includes existingFieldsWithErrors field))
              (getValidatedFields conditionalValidator) with
      | None => mret fieldErrors
      | Some _ =>
          holds ← predicate value;
          if negb holds then mret fieldErrors
          else (
            conditionalFieldErrors ← getFieldErrors conditionalValidator value;
            mret (copy_errors conditionalFieldErrors
                    (filter (fun field => ¬ includes existingFieldsWithErrors field)
                       (keysOf conditionalFieldErrors))
                    fieldErrors))
      end
  end.

(** *** The builders *)

(** The one member of a [URL] the library reads. *)
Record URL : Type := { protocol : JsString }.

(** The [pattern] argument: [string | RegExp].  A [RegExp] object is taken
    as the expression it holds.  With the [g] or [y] flag the [test] of the
    host also reads and moves the [lastIndex] of the object, which the
    embedding leaves out: the statements that run a rule more than once are
    made for calls that pass no such object ([stateless]). *)
Inductive Pattern : Type :=
| PatternString (source : JsString)
| PatternRegExp (regExp : RegExp).

Section Builders.

(** [new URL(str)]: the host's URL parser, which throws on what it cannot
    parse.  The library is verified for every behaviour of it. *)
Variable URL_new : JsString → Completion URL.

Definition appendFieldValidator (field : string) (validator : InputFieldValidator)
    (this : InputFormValidator) : InputFormValidator :=
  ChildInputFormValidator field validator this.

Definition when (predicate : FormValue → Completion bool)
    (validatorBuilder : InputFormValidator → Completion InputFormValidator)
    (this : InputFormValidator) : Completion InputFormValidator :=
  subValidator ← validatorBuilder NoopInputFormValidator;
  mret (ConditionalInputFormValidator predicate subValidator this).

Definition notUndefined (field : string) (error : string) (this : InputFormValidator)
    : InputFormValidator :=
  appendFieldValidator field
    {| error := error;
       validate := fun fieldValue _ => mret (negb (strict_equals fieldValue JUndefined)) |}
    this.

Definition notUndefinedWithNoError (field : string) (this : InputFormValidator)
    : InputFormValidator :=
  notUndefined field "" this.

Definition notEmpty (field : string) (error : string) (this : InputFormValidator)
    : InputFormValidator :=
  appendFieldValidator field
    {| error := error;
       validate := fun fieldValue _ =>
         mret (isArray fieldValue
               && match fieldValue with
                  | JArray _ items => num_ltb (num_of_nat 0) (num_of_nat (length items))
                  | _ => false
                  end) |}
    this.

Definition appendStringValidator (field : string) (error : string)
    (validate : JsString → FormValue → Completion bool) (this : InputFormValidator)
    : InputFormValidator :=
  appendFieldValidator field
    {| error := error;
       validate := fun fieldValue formValue =>
         match fieldValue with
         | JString str => validate str formValue
         | _ => mret false
         end |}
    this.

Definition appendNumberValidator (field : string) (error : string)
    (validate : JsNumber → FormValue → Completion bool) (this : InputFormValidator)
    : InputFormValidator :=
  appendFieldValidator field
    {| error := error;
       validate := fun fieldValue formValue =>
         match fieldValue with
         | JNumber num => validate num formValue
         | _ => mret false
         end |}
    this.

Definition notBlank (field error : string) (this : InputFormValidator) : InputFormValidator :=
  appendStringValidator field error
    (fun str _ => mret (negb (str_eqb (trim str) []))) this.

Definition minLength (field error : string) (min : JsNumber) (this : InputFormValidator)
    : InputFormValidator :=
  appendStringValidator field error
    (fun str _ => mret (num_leb min (num_of_nat (length str)))) this.

Definition maxLength (field error : string) (max : JsNumber) (this : InputFormValidator)
    : InputFormValidator :=
  appendStringValidator field error
    (fun str _ => mret (num_leb (num_of_nat (length str)) max)) this.

Definition hasLength (field error : string) (length_ : JsNumber) (this : InputFormValidator)
    : InputFormValidator :=
  appendStringValidator field error
    (fun str _ => mret (num_eqb (num_of_nat (length str)) length_)) this.

Definition pattern (field : string) (pattern : Pattern) (error : string)
    (this : InputFormValidator) : Completion InputFormValidator :=
  regExp ← match pattern with
           | PatternString source => RegExp_new source
           | PatternRegExp regExp => mret regExp
           end;
  mret (appendStringValidator field error
          (fun value _ => mret (RegExp_test regExp value)) this).

Definition validMail (field error : string) (this : InputFormValidator)
    : Completion InputFormValidator :=
  pattern field (PatternRegExp mailRegExp) error this.

Definition validUrl (field error : string) (this : InputFormValidator) : InputFormValidator :=
  appendStringValidator field error
    (fun str _ =>
       mret (try_catch
               (url ← URL_new str;
                mret (str_eqb (protocol url) (js "http:")
                      || str_eqb (protocol url) (js "https:")))
               false))
    this.

Definition require (field error : string)
    (validate : JsValue → FormValue → Completion bool) (this : InputFormValidator)
    : InputFormValidator :=
  appendFieldValidator field {| error := error; validate := validate |} this.

Definition requireWithNoError (field : string)
    (validate : JsValue → FormValue → Completion bool) (this : InputFormValidator)
    : InputFormValidator :=
  appendFieldValidator field {| error := ""; validate := validate |} this.

Definition notEquals (field : string) (invalidValue : JsValue) (error : string)
    (this : InputFormValidator) : InputFormValidator :=
  require field error
    (fun value _ => mret (negb (strict_equals value invalidValue))) this.

Definition greaterThan (field : string) (min : JsNumber) (error : string)
    (this : InputFormValidator) : InputFormValidator :=
  appendNumberValidator field error (fun num _ => mret (num_ltb min num)) this.

Definition isPositive (field error : string) (this : InputFormValidator)
    : InputFormValidator :=
  greaterThan field (num_of_nat 0) error this.

Definition isInteger (field error : string) (this : InputFormValidator)
    : InputFormValidator :=
  appendNumberValidator field error
    (fun num _ => mret (num_eqb num (Math_floor num))) this.

End Builders.

(** *** Builder calls as data

    One constructor per public builder method, so that statements can range
    over "every builder operation"; [call] dispatches to the method. *)
Inductive BuilderCall : Type :=
| CallWhen (predicate : FormValue → Completion bool)
    (validatorBuilder : InputFormValidator → Completion InputFormValidator)
| CallNotUndefinedWithNoError (field : string)
| CallNotUndefined (field error : string)
| CallNotEmpty (field error : string)
| CallNotBlank (field error : string)
| CallMinLength (field error : string) (min : JsNumber)
| CallMaxLength (field error : string) (max : JsNumber)
| CallHasLength (field error : string) (length_ : JsNumber)
| CallPattern (field : string) (pattern : Pattern) (error : string)
| CallValidMail (field error : string)
| CallValidUrl (field error : string)
| CallNotEquals (field : string) (invalidValue : JsValue) (error : string)
| CallIsPositive (field error : string)
| CallGreaterThan (field : string) (min : JsNumber) (error : string)
| CallIsInteger (field error : string)
| CallRequire (field error : string) (validate : JsValue → FormValue → Completion bool)
| CallRequireWithNoError (field : string) (validate : JsValue → FormValue → Completion bool)
| CallAppendStringValidator (field error : string)
    (validate : JsString → FormValue → Completion bool)
| CallAppendNumberValidator (field error : string)
    (validate : JsNumber → FormValue → Completion bool).

Definition call (URL_new : JsString → Completion URL) (c : BuilderCall)
    (this : InputFormValidator) : Completion InputFormValidator :=
  match c with
  | CallWhen predicate validatorBuilder => when predicate validatorBuilder this
  | CallNotUndefinedWithNoError field => mret (notUndefinedWithNoError field this)
  | CallNotUndefined field error => mret (notUndefined field error this)
  | CallNotEmpty field error => mret (notEmpty field error this)
  | CallNotBlank field error => mret (notBlank field error this)
  | CallMinLength field error min => mret (minLength field error min this)
  | CallMaxLength field error max => mret (maxLength field error max this)
  | CallHasLength field error length_ => mret (hasLength field error length_ this)
  | CallPattern field pat error => pattern field pat error this
  | CallValidMail field error => validMail field error this
  | CallValidUrl field error => mret (validUrl URL_new field error this)
  | CallNotEquals field invalidValue error => mret (notEquals field invalidValue error this)
  | CallIsPositive field error => mret (isPositive field error this)
  | CallGreaterThan field min error => mret (greaterThan field min error this)
  | CallIsInteger field error => mret (isInteger field error this)
  | CallRequire field error validate => mret (require field error validate this)
  | CallRequireWithNoError field validate => mret (requireWithNoError field validate this)
  | CallAppendStringValidator field error validate =>
      mret (appendStringValidator field error validate this)
  | CallAppendNumberValidator field error validate =>
      mret (appendNumberValidator field error validate this)
  end.

(** The field a builder call puts a rule on ([when] puts none of its own). *)
Definition call_field (c : BuilderCall) : option string :=
  match c with
  | CallWhen _ _ => None
  | CallNotUndefinedWithNoError field | CallNotUndefined field _
  | CallNotEmpty field _ | CallNotBlank field _ | CallMinLength field _ _
  | CallMaxLength field _ _ | CallHasLength field _ _ | CallPattern field _ _
  | CallValidMail field _ | CallValidUrl field _ | CallNotEquals field _ _
  | CallIsPositive field _ | CallGreaterThan field _ _ | CallIsInteger field _
  | CallRequire field _ _ | CallRequireWithNoError field _
  | CallAppendStringValidator field _ _ | CallAppendNumberValidator field _ _ =>
      Some field
  end.

(** The runtime shape a typed builder requires of the field value. *)
Inductive Shape : Type := ShapeString | ShapeNumber | ShapeArray.

Definition has_shape (s : Shape) (v : JsValue) : bool :=
  match s, v with
  | ShapeString, JString _ => true
  | ShapeNumber, JNumber _ => true
  | ShapeArray, JArray _ _ => true
  | _, _ => false
  end.

(** The typed builders: the string validators, the number validators and
    [notEmpty].  [notUndefined], [notEquals], [require] and [when] require no
    shape. *)
Definition call_shape (c : BuilderCall) : option Shape :=
  match c with
  | CallNotEmpty _ _ => Some ShapeArray
  | CallNotBlank _ _ | CallMinLength _ _ _ | CallMaxLength _ _ _
  | CallHasLength _ _ _ | CallPattern _ _ _ | CallValidMail _ _
  | CallValidUrl _ _ | CallAppendStringValidator _ _ _ => Some ShapeString
  | CallIsPositive _ _ | CallGreaterThan _ _ _ | CallIsInteger _ _
  | CallAppendNumberValidator _ _ _ => Some ShapeNumber
  | _ => None
  end.

(** Chains without [when]: built from [require] and the typed builders. *)
Fixpoint no_when (this : InputFormValidator) : Prop :=
  match this with
  | NoopInputFormValidator => True
  | ChildInputFormValidator _ _ parent => no_when parent
  | ConditionalInputFormValidator _ _ _ => False
  end.

(** The fields of the rules of a chain without [when], in the order the rules
    were appended. *)
Fixpoint appended_fields (this : InputFormValidator) : list string :=
  match this with
  | NoopInputFormValidator => []
  | ChildInputFormValidator validatedField _ parent =>
      appended_fields parent ++ [validatedField]
  | ConditionalInputFormValidator _ _ parent => appended_fields parent
  end.

(** Spec side of [getValidatedFields]: each name once, at the place of its
    first occurrence. *)
Fixpoint first_occurrences (seen : list string) (l : list string) : list string :=
  match l with
  | [] => []
  | x :: rest =>
      if includes seen x then first_occurrences seen rest
      else x :: first_occurrences (x :: seen) rest
  end.

(** [later] is [base] with further builder calls applied on top. *)
Inductive extends (base : InputFormValidator) : InputFormValidator → Prop :=
| extends_refl : extends base base
| extends_child field validator parent :
    extends base parent →
    extends base (ChildInputFormValidator field validator parent)
| extends_conditional predicate conditionalValidator parent :
    extends base parent →
    extends base (ConditionalInputFormValidator predicate conditionalValidator parent).

(** Every callback of the chain returns normally on [value]. *)
Fixpoint callbacks_return (this : InputFormValidator) (value : FormValue) : Prop :=
  match this with
  | NoopInputFormValidator => True
  | ChildInputFormValidator validatedField validator parent =>
      callbacks_return parent value
      ∧ returns (validate validator (get_field value validatedField) value)
  | ConditionalInputFormValidator predicate conditionalValidator parent =>
      callbacks_return parent value
      ∧ returns (predicate value)
      ∧ callbacks_return conditionalValidator value
  end.

(* ===================================================================== *)
(** ** input-form-field.ts: the field projection *)
(* ===================================================================== *)

(** What an accessor hands to the two setters it was created with. *)
Inductive SinkCall : Type :=
| setFormValue (updateFn : N → FormValue → FormValue)
    (** the update function, given the identity of the object it allocates *)
| setTouchedFields (value : list string).

(** The values captured by the handler's constructor (its two setters are
    the sinks above). *)
Record HandlerArgs : Type := {
  formValue : FormValue;
  touchedFields : list string;
  errors : ErrorMap
}.

Inductive InputFormField : Type :=
| ProxyField (this : HandlerArgs) (name : string)
    (** the accessor object created by the handler's [get] *)
| MappedInputFormField (delegate : InputFormField)
    (mapper inverseMapper : JsValue → JsValue).

(** The handler: its constructor arguments and its private cache [fields]. *)
Record InputFormFieldsHandler : Type := {
  args : HandlerArgs;
  fields : gmap string InputFormField
}.

Definition createInputFormFields (formValue : FormValue) (touchedFields : list string)
    (errors : ErrorMap) : InputFormFieldsHandler :=
  {| args := {| formValue := formValue; touchedFields := touchedFields; errors := errors |};
     fields := ∅ |}.

Inductive PropertyKey : Type :=
| KeyString (name : string)
| KeySymbol (id : N).

(** The proxy trap [get]: the accessor, and the handler with its cache
    updated. *)
Definition get (this : InputFormFieldsHandler) (name : PropertyKey)
    : option InputFormField * InputFormFieldsHandler :=
  match name with
  | KeySymbol _ => (None, this)
  | KeyString name =>
      let this' :=
        match fields this !! name with
        | None =>
            {| args := args this;
               fields := <[name := ProxyField (args this) name]> (fields this) |}
        | Some _ => this
        end in
      (fields this' !! name, this')
  end.

(** The update function passed by [setValue]. *)
Definition setValue_update (name : string) (fieldValue : JsValue)
    (fresh : N) (prevState : FormValue) : FormValue :=
  if strict_equals (get_field prevState name) fieldValue then prevState
  else {| obj_id := fresh; obj_props := <[name := fieldValue]> (obj_props prevState) |}.

Fixpoint setValue (field : InputFormField) (fieldValue : JsValue) : list SinkCall :=
  match field with
  | ProxyField this name =>
      setFormValue (setValue_update name fieldValue)
      :: (if negb (includes (touchedFields this) name)
          then [setTouchedFields (touchedFields this ++ [name])]
          else [])
  | MappedInputFormField delegate _ inverseMapper =>
      setValue delegate (inverseMapper fieldValue)
  end.

(** What [getValue] returns: a value, or the promise [value.then(mapper)]. *)
Inductive Got : Type :=
| Value (v : JsValue)
| ThenPromise (value : Got) (mapper : JsValue → JsValue).

Definition got_isPromise (g : Got) : bool :=
  match g with
  | Value v => isPromise v
  | ThenPromise _ _ => true
  end.

Fixpoint getValue (field : InputFormField) : Got :=
  match field with
  | ProxyField this name => Value (get_field (formValue this) name)
  | MappedInputFormField delegate mapper _ =>
      let value := getValue delegate in
      if got_isPromise value then ThenPromise value mapper
      else match value with
           | Value v => Value (mapper v)
           | ThenPromise _ _ => ThenPromise value mapper
           end
  end.

Fixpoint markAsTouched (field : InputFormField) : list SinkCall :=
  match field with
  | ProxyField this name =>
      if negb (includes (touchedFields this) name)
      then [setTouchedFields (touchedFields this ++ [name])]
      else []
  | MappedInputFormField delegate _ _ => markAsTouched delegate
  end.

Fixpoint isTouched (field : InputFormField) : bool :=
  match field with
  | ProxyField this name => includes (touchedFields this) name
  | MappedInputFormField delegate _ _ => isTouched delegate
  end.

Fixpoint isInvalid (field : InputFormField) : bool :=
  match field with
  | ProxyField this name => bool_decide (get_error (errors this) name ≠ None)
  | MappedInputFormField delegate _ _ => isInvalid delegate
  end.

Fixpoint isValid (field : InputFormField) : bool :=
  match field with
  | ProxyField this name => bool_decide (get_error (errors this) name = None)
  | MappedInputFormField delegate _ _ => isValid delegate
  end.

Fixpoint isShowError (field : InputFormField) : bool :=
  match field with
  | ProxyField this name =>
      includes (touchedFields this) name
      && bool_decide (get_error (errors this) name ≠ None)
  | MappedInputFormField delegate _ _ => isShowError delegate
  end.

Fixpoint getErrorMessage (field : InputFormField) : option string :=
  match field with
  | ProxyField this name =>
      if bool_decide (get_error (errors this) name = Some "") then None
      else get_error (errors this) name
  | MappedInputFormField delegate _ _ => getErrorMessage delegate
  end.

(** [field.map(mapper, inversMapper)], called while the handler that owns the
    accessor is in state [owner]. *)
Definition map_field (owner : InputFormFieldsHandler) (field : InputFormField)
    (mapper inversMapper : JsValue → JsValue) : Completion InputFormField :=
  match field with
  | ProxyField _ name =>
      match fields owner !! name with
      | None => Throw (Error ("Failed to map form field " ++ name)%string)
      | Some field => mret (MappedInputFormField field mapper inversMapper)
      end
  | MappedInputFormField _ _ _ =>
      mret (MappedInputFormField field mapper inversMapper)
  end.

(** The states a handler goes through: [get] is the only code that writes
    its cache. *)
Inductive handler_reaches (start : InputFormFieldsHandler)
    : InputFormFieldsHandler → Prop :=
| reaches_here : handler_reaches start start
| reaches_get this name :
    handler_reaches start this →
    handler_reaches start (get this name).2.

(* ===================================================================== *)
(** ** input-form-state.hook.ts: the state behind the setters *)
(* ===================================================================== *)

(** The two [useState] cells the setters write, and the next unused object
    identity. *)
Record HookState : Type := {
  st_value : FormValue;
  st_touchedFields : list string;
  st_fresh : N
}.

(** A [useState] setter: an update function is applied to the current state,
    a plain value replaces it. *)
Definition dispatch (st : HookState) (c : SinkCall) : HookState :=
  match c with
  | setFormValue updateFn =>
      {| st_value := updateFn (st_fresh st) (st_value st);
         st_touchedFields := st_touchedFields st;
         st_fresh := N.succ (st_fresh st) |}
  | setTouchedFields value =>
      {| st_value := st_value st;
         st_touchedFields := value;
         st_fresh := st_fresh st |}
  end.

Definition run (st : HookState) (calls : list SinkCall) : HookState :=
  foldl dispatch st calls.

(** The projection the hook builds for the current state. *)
Definition hook_fields (st : HookState) (errors : ErrorMap) : InputFormFieldsHandler :=
  createInputFormFields (st_value st) (st_touchedFields st) errors.

(** The getter [invalid] *)
Definition invalid (errors : ErrorMap) : bool :=
  bool_decide
    (find (fun field => bool_decide (get_error errors field ≠ None)) (keysOf errors) ≠ None).

Definition getValidValue (errors : ErrorMap) (value : FormValue) : Completion FormValue :=
  if bool_decide
       (find (fun field => bool_decide (get_error errors field ≠ None)) (keysOf errors) = None)
  then mret value
  else Throw (Error "Input form is not valid.").

(* ===================================================================== *)
(** ** Vocabulary of the statements *)
(* ===================================================================== *)

(** Builder calls that take no callback from the caller. *)
Definition callback_free (c : BuilderCall) : bool :=
  match c with
  | CallWhen _ _ | CallRequire _ _ _ | CallRequireWithNoError _ _
  | CallAppendStringValidator _ _ _ | CallAppendNumberValidator _ _ _ => false
  | _ => true
  end.

(** A chain built by a sequence of builder calls, the first call first. *)
Fixpoint build (URL_new : JsString → Completion URL) (calls : list BuilderCall)
    (this : InputFormValidator) : Completion InputFormValidator :=
  match calls with
  | [] => mret this
  | c :: rest =>
      next ← call URL_new c this;
      build URL_new rest next
  end.

(** What a builder call needs in order to return: [pattern] compiles a
    string pattern, [when] runs the caller's builder. *)
Definition call_accepted (c : BuilderCall) : Prop :=
  match c with
  | CallPattern _ (PatternString source) _ => returns (RegExp_new source)
  | CallWhen _ validatorBuilder => returns (validatorBuilder NoopInputFormValidator)
  | _ => True
  end.

(** The handler arguments and the field name an accessor is bound to,
    through any number of mappings. *)
Fixpoint underlying (field : InputFormField) : HandlerArgs * string :=
  match field with
  | ProxyField this name => (this, name)
  | MappedInputFormField delegate _ _ => underlying delegate
  end.

(** The handler's cache holds, under a name, the accessor made for it. *)
Definition cache_ok (this : InputFormFieldsHandler) : Prop :=
  ∀ name field, fields this !! name = Some field → field = ProxyField (args this) name.

(** An object with the given identity and properties. *)
Definition object (id : N) (props : list (string * JsValue)) : FormValue :=
  {| obj_id := id; obj_props := list_to_map props |}.

(* ===================================================================== *)
(** ** input-form-state.hook.ts: the other members of the form state *)
(* ===================================================================== *)

(** [untouched]: [touchedFields.length === 0] *)
Definition untouched (touchedFields : list string) : bool :=
  bool_decide (length touchedFields = 0%nat).

(** [reset]: the value setter is given the initial value itself (for the
    setter, a constant update) and the touched setter an empty array. *)
Definition reset (initialValue : FormValue) : list SinkCall :=
  [setFormValue (fun _ _ => initialValue); setTouchedFields []].

(** [touchValidatedFields].  [validatedFields] is the array the hook keeps in
    [validatedFieldsRef]: the validator's [getValidatedFields()]. *)
Definition touchValidatedFields (validatedFields touchedFields : list string)
    : list SinkCall :=
  let untouchedValidatedFields :=
    filter (fun field => ¬ includes touchedFields field) validatedFields in
  if bool_decide (length untouchedValidatedFields = 0%nat) then []
  else [setTouchedFields (touchedFields ++ untouchedValidatedFields)].

(** The getter [showsAnyErrors].  [Stream.of(keys).anyMatch(p)], from a
    package outside the sources, is taken as: some key satisfies [p]. *)
Definition showsAnyErrors (errors : ErrorMap) (touchedFields : list string) : bool :=
  existsb
    (fun field => bool_decide (get_error errors field ≠ None) && includes touchedFields field)
    (keysOf errors).

(** [rule] is a field rule on [field] somewhere in the chain, nested
    conditional chains included. *)
Inductive rule_in (field : string) (rule : InputFieldValidator)
    : InputFormValidator → Prop :=
| rule_here parent :
    rule_in field rule (ChildInputFormValidator field rule parent)
| rule_below other validator parent :
    rule_in field rule parent →
    rule_in field rule (ChildInputFormValidator other validator parent)
| rule_in_parent predicate conditionalValidator parent :
    rule_in field rule parent →
    rule_in field rule
      (ConditionalInputFormValidator predicate conditionalValidator parent)
| rule_in_conditional predicate conditionalValidator parent :
    rule_in field rule conditionalValidator →
    rule_in field rule
      (ConditionalInputFormValidator predicate conditionalValidator parent).

(** The identity the next new object gets is not the one of the object the
    state holds. *)
Definition identity_ahead (st : HookState) : Prop :=
  (obj_id (st_value st) < st_fresh st)%N.

(** Builder calls whose rule is a function of the field value: no callback
    from the caller, and no [RegExp] object from the caller (see [Pattern]). *)
Definition stateless (c : BuilderCall) : bool :=
  callback_free c
  && match c with
     | CallPattern _ (PatternRegExp _) _ => false
     | _ => true
     end.

(* ===================================================================== *)
(** ** Field names that are numbers *)
(* ===================================================================== *)

(** The builders take [Field extends keyof FormValue], which admits the
    numeric property names of a form value such as [{0: string}] beside the
    string ones.  A number used as a property name denotes the property
    named by its decimal string, and [Object.keys] returns that string;
    [===] and [Array.prototype.includes] tell the number from the string.
    The module below is the validator chain, the two builders of the
    running example and the hook members that compare names, over names of
    both kinds (natural numbers for the numeric ones).  On names that are
    strings it is the chain above: see [embed]. *)
Module Keyed.

Inductive FieldName : Type :=
| NameString (s : string)
| NameNumber (n : N).

(** [a === b] on field names *)
Definition name_eqb (a b : FieldName) : bool :=
  match a, b with
  | NameString s, NameString t => bool_decide (s = t)
  | NameNumber n, NameNumber m => bool_decide (n = m)
  | _, _ => false
  end.

(** The property a name denotes: [ToPropertyKey] *)
Definition property_key (name : FieldName) : string :=
  match name with
  | NameString s => s
  | NameNumber n => NilEmpty.string_of_uint (N.to_uint n)
  end.

(** [names.includes(x)] on an array of field names *)
Definition includes_name (names : list FieldName) (x : FieldName) : bool :=
  existsb (name_eqb x) names.

(** [keys.includes(x)] on the strings returned by [keysOf], for a field name
    [x]: no string is equal to a number. *)
Definition keys_include (keys : list string) (x : FieldName) : bool :=
  match x with
  | NameString s => includes keys s
  | NameNumber _ => false
  end.

Inductive InputFormValidator : Type :=
| NoopInputFormValidator
| ChildInputFormValidator (validatedField : FieldName)
    (validator : InputFieldValidator) (parent : InputFormValidator)
| ConditionalInputFormValidator (predicate : FormValue → Completion bool)
    (conditionalValidator parent : InputFormValidator).

Fixpoint isFieldValid (this : InputFormValidator) (field : FieldName) (value : FormValue)
    : Completion bool :=
  match this with
  | NoopInputFormValidator => mret true
  | ChildInputFormValidator validatedField validator parent =>
      parentValid ← isFieldValid parent field value;
      if negb parentValid then mret false
      else if negb (name_eqb validatedField field) then mret true
      else validate validator (get_field value (property_key field)) value
  | ConditionalInputFormValidator predicate conditionalValidator parent =>
      parentValid ← isFieldValid parent field value;
      if negb parentValid then mret false
      else (
        holds ← predicate value;
        if (holds : bool) then isFieldValid conditionalValidator field value
        else mret true)
  end.

Definition push_absent (fields : list FieldName) (f : FieldName) : list FieldName :=
  if includes_name fields f then fields else fields ++ [f].

Fixpoint getValidatedFields (this : InputFormValidator) : list FieldName :=
  match this with
  | NoopInputFormValidator => []
  | ChildInputFormValidator validatedField _ parent =>
      let validatedFields := getValidatedFields parent in
      if includes_name validatedFields validatedField then validatedFields
      else validatedFields ++ [validatedField]
  | ConditionalInputFormValidator _ conditionalValidator parent =>
      foldl push_absent (getValidatedFields parent)
        (getValidatedFields conditionalValidator)
  end.

Fixpoint getFieldErrors (this : InputFormValidator) (value : FormValue)
    : Completion ErrorMap :=
  match this with
  | NoopInputFormValidator => mret ∅
  | ChildInputFormValidator validatedField validator parent =>
      fieldErrors ← getFieldErrors parent value;
      if keys_include (keysOf fieldErrors) validatedField then mret fieldErrors
      else (
        valid ← validate validator (get_field value (property_key validatedField)) value;
        if negb valid
        then mret (<[property_key validatedField := Some (error validator)]> fieldErrors)
        else mret fieldErrors)
  | ConditionalInputFormValidator predicate conditionalValidator parent =>
      fieldErrors ← getFieldErrors parent value;
      let existingFieldsWithErrors := keysOf fieldErrors in
      match find (fun field => negb (keys_include existingFieldsWithErrors field))
              (getValidatedFields conditionalValidator) with
      | None => mret fieldErrors
      | Some _ =>
          holds ← predicate value;
          if negb holds then mret fieldErrors
          else (
            conditionalFieldErrors ← getFieldErrors conditionalValidator value;
            mret (copy_errors conditionalFieldErrors
                    (filter (fun field => ¬ includes existingFieldsWithErrors field)
                       (keysOf conditionalFieldErrors))
                    fieldErrors))
      end
  end.

Definition appendFieldValidator (field : FieldName) (validator : InputFieldValidator)
    (this : InputFormValidator) : InputFormValidator :=
  ChildInputFormValidator field validator this.

Definition appendStringValidator (field : FieldName) (error : string)
    (validate : JsString → FormValue → Completion bool) (this : InputFormValidator)
    : InputFormValidator :=
  appendFieldValidator field
    {| error := error;
       validate := fun fieldValue formValue =>
         match fieldValue with
         | JString str => validate str formValue
         | _ => mret false
         end |}
    this.

Definition notBlank (field : FieldName) (error : string) (this : InputFormValidator)
    : InputFormValidator :=
  appendStringValidator field error
    (fun str _ => mret (negb (str_eqb (trim str) []))) this.

Definition minLength (field : FieldName) (error : string) (min : JsNumber)
    (this : InputFormValidator) : InputFormValidator :=
  appendStringValidator field error
    (fun str _ => mret (num_leb min (num_of_nat (length str)))) this.

(** [touchValidatedFields]: the array given to [setTouchedFields], or [None]
    when the setter is not called. *)
Definition touchValidatedFields (validatedFields touchedFields : list FieldName)
    : option (list FieldName) :=
  let untouchedValidatedFields :=
    filter (fun field => ¬ includes_name touchedFields field) validatedFields in
  if bool_decide (length untouchedValidatedFields = 0%nat) then None
  else Some (touchedFields ++ untouchedValidatedFields).

(** The touched fields of the next render. *)
Definition touched_after (validatedFields touchedFields : list FieldName)
    : list FieldName :=
  default touchedFields (touchValidatedFields validatedFields touchedFields).

(** The getter [showsAnyErrors]: [field] ranges over the strings of
    [keysOf(errors)], looked up among the touched names. *)
Definition showsAnyErrors (errors : ErrorMap) (touchedFields : list FieldName) : bool :=
  existsb
    (fun field => bool_decide (get_error errors field ≠ None)
                  && includes_name touchedFields (NameString field))
    (keysOf errors).

(** Every field name of the chain, nested conditional chains included, is a
    string. *)
Fixpoint string_named (this : InputFormValidator) : Prop :=
  match this with
  | NoopInputFormValidator => True
  | ChildInputFormValidator validatedField _ parent =>
      (∃ s, validatedField = NameString s) ∧ string_named parent
  | ConditionalInputFormValidator _ conditionalValidator parent =>
      string_named conditionalValidator ∧ string_named parent
  end.

End Keyed.

(** A chain over string names, as a chain over names of both kinds. *)
Fixpoint embed (this : InputFormValidator) : Keyed.InputFormValidator :=
  match this with
  | NoopInputFormValidator => Keyed.NoopInputFormValidator
  | ChildInputFormValidator validatedField validator parent =>
      Keyed.ChildInputFormValidator (Keyed.NameString validatedField) validator
        (embed parent)
  | ConditionalInputFormValidator predicate conditionalValidator parent =>
      Keyed.ConditionalInputFormValidator predicate (embed conditionalValidator)
        (embed parent)
  end.

(* ===================================================================== *)
(** ** The embedding on the documented examples *)
(* ===================================================================== *)

Example notUndefined_demo :
  getFieldErrors (notUndefined "demo" "Required" NoopInputFormValidator)
    (object 0 [("demo", JUndefined)]) = Normal {["demo" := Some "Required"]}
  ∧ getFieldErrors (notUndefined "demo" "Required" NoopInputFormValidator)
      (object 0 [("demo", JString (js "x"))]) = Normal ∅.
Proof. split; reflexivity. Qed.

Example minLength_name :
  isFieldValid (minLength "name" "Too short" (num_of_nat 3) NoopInputFormValidator)
    "name" (object 0 [("name", JString (js "ab"))]) = Normal false
  ∧ isFieldValid (minLength "name" "Too short" (num_of_nat 3) NoopInputFormValidator)
      "name" (object 0 [("name", JString (js "abc"))]) = Normal true
  ∧ isFieldValid (minLength "name" "Too short" (num_of_nat 3) NoopInputFormValidator)
      "name" (object 0 [("name", JNumber (num_of_nat 42))]) = Normal false.
Proof. repeat split; reflexivity. Qed.

Example mail_literal :
  RegExp_new (js "[^\s@]+@([^\s@.,]+\.)+[^\s@.,]{2,}") = Normal mailRegExp.
Proof. reflexivity. Qed.

Example validMail_mail :
  (chain ← validMail "mail" "Bad email" NoopInputFormValidator;
   isFieldValid chain "mail" (object 0 [("mail", JString (js "a@b.co"))])) = Normal true
  ∧ (chain ← validMail "mail" "Bad email" NoopInputFormValidator;
     isFieldValid chain "mail" (object 0 [("mail", JString (js "not-an-email"))]))
    = Normal false
  ∧ (chain ← validMail "mail" "Bad email" NoopInputFormValidator;
     isFieldValid chain "mail" (object 0 [("mail", JString (js "a@b"))])) = Normal false.
Proof. repeat split; vm_compute; reflexivity. Qed.

Example pattern_digits :
  (chain ← pattern "zip" (PatternString (js "^\d{5}$")) "Bad zip" NoopInputFormValidator;
   getFieldErrors chain (object 0 [("zip", JString (js "12345"))])) = Normal ∅
  ∧ (chain ← pattern "zip" (PatternString (js "^\d{5}$")) "Bad zip" NoopInputFormValidator;
     getFieldErrors chain (object 0 [("zip", JString (js "1234x"))]))
    = Normal {["zip" := Some "Bad zip"]}.
Proof. split; vm_compute; reflexivity. Qed.

Example RegExp_new_rejects :
  RegExp_new (js "a)") = Throw (SyntaxError "unmatched )")
  ∧ RegExp_new (js "*a") = Throw (SyntaxError "nothing to repeat")
  ∧ RegExp_new (js "[a") = Throw (SyntaxError "unterminated character class")
  ∧ RegExp_new (js "a{2,1}") = Throw (SyntaxError "numbers out of order in {} quantifier")
  ∧ returns (RegExp_new (js "a{"))
  ∧ returns (RegExp_new (js "(a|b)*c?")).
Proof. repeat split; try reflexivity; eexists; reflexivity. Qed.

Example whole_form :
  getFieldErrors
    (notUndefined "age" "A" (notBlank "name" "N" NoopInputFormValidator))
    (object 0 [("name", JString (js "")); ("age", JNumber (num_of_nat 5))])
  = Normal {["name" := Some "N"]}
  ∧ invalid {["name" := Some "N"]} = true
  ∧ getFieldErrors
      (notUndefined "age" "A" (notBlank "name" "N" NoopInputFormValidator))
      (object 0 [("name", JString (js "Bob")); ("age", JNumber (num_of_nat 5))])
    = Normal ∅
  ∧ invalid ∅ = false.
Proof. repeat split; reflexivity. Qed.

(* ===================================================================== *)
(** ** Basic facts *)
(* ===================================================================== *)

Lemma bind_Normal {A B} (m : Completion A) (f : A → Completion B) (b : B) :
  m ≫= f = Normal b ↔ ∃ a, m = Normal a ∧ f a = Normal b.
Proof.
  destruct m as [a|e]; simpl; split.
  - intros H. by exists a.
  - by intros (a' & [= ->] & H).
  - discriminate.
  - by intros (a' & [=] & _).
Qed.

Lemma bind_returns {A B} (m : Completion A) (f : A → Completion B) :
  returns (m ≫= f) ↔ ∃ a, m = Normal a ∧ returns (f a).
Proof.
  unfold returns. split.
  - intros [b (a & Hm & Hf)%bind_Normal]. eauto.
  - intros (a & Hm & b & Hf). exists b. apply bind_Normal. eauto.
Qed.

Lemma returns_Normal {A} (a : A) : returns (Normal a).
Proof. by exists a. Qed.

Lemma returns_mret {A} (a : A) : returns (mret a : Completion A).
Proof. by exists a. Qed.

Lemma not_returns_Throw {A} (e : JsError) : ¬ returns (Throw e : Completion A).
Proof. by intros [a [=]]. Qed.

Lemma throws_not_returns {A} (c : Completion A) : throws c ↔ ¬ returns c.
Proof.
  destruct c as [a|e]; split.
  - by intros [e [=]].
  - intros H. destruct H. apply returns_Normal.
  - intros _. apply not_returns_Throw.
  - intros _. by exists e.
Qed.

#[local] Hint Resolve returns_Normal returns_mret : core.

(** Takes an equation [m ≫= f = Normal b] apart. *)
Ltac inv_bind H :=
  let a := fresh "a" in
  let Ha := fresh "Ha" in
  apply bind_Normal in H as (a & Ha & H).

Lemma includes_true (l : list string) (x : string) : includes l x = true ↔ x ∈ l.
Proof. unfold includes. by rewrite bool_decide_eq_true. Qed.

Lemma includes_false (l : list string) (x : string) : includes l x = false ↔ x ∉ l.
Proof. unfold includes. by rewrite bool_decide_eq_false. Qed.

Lemma elem_of_keysOf {A} (m : gmap string A) (k : string) :
  k ∈ keysOf m ↔ is_Some (m !! k).
Proof.
  unfold keysOf. rewrite list_elem_of_fmap. split.
  - intros ([k' a] & -> & H%elem_of_map_to_list). by exists a.
  - intros [a H]. exists (k, a). split; [done|]. by apply elem_of_map_to_list.
Qed.

Lemma not_elem_of_keysOf {A} (m : gmap string A) (k : string) :
  k ∉ keysOf m ↔ m !! k = None.
Proof. rewrite elem_of_keysOf. by rewrite eq_None_not_Some. Qed.

Lemma find_none_iff {A} (p : A → bool) (l : list A) :
  find p l = None ↔ ∀ x, x ∈ l → p x = false.
Proof.
  induction l as [|a l IH]; simpl.
  - split; [|done]. intros _ x H. by apply elem_of_nil in H.
  - destruct (p a) eqn:Hp.
    + split; [done|]. intros H. specialize (H a (list_elem_of_here _ _)). congruence.
    + rewrite IH. split.
      * intros H x [->|Hx]%elem_of_cons; auto.
      * intros H x Hx. apply H. by apply list_elem_of_further.
Qed.

(** *** Pushing absent names *)

Lemma elem_of_push_absent (l : list string) (f x : string) :
  x ∈ push_absent l f ↔ x ∈ l ∨ x = f.
Proof.
  unfold push_absent. destruct (includes l f) eqn:H.
  - apply includes_true in H. split; [auto|]. by intros [?| ->].
  - rewrite elem_of_app, list_elem_of_singleton. done.
Qed.

Lemma NoDup_push_absent (l : list string) (f : string) :
  NoDup l → NoDup (push_absent l f).
Proof.
  intros Hl. unfold push_absent. destruct (includes l f) eqn:H; [done|].
  apply includes_false in H. apply NoDup_app. split_and!; [done| |apply NoDup_singleton].
  intros x Hx ->%list_elem_of_singleton. done.
Qed.

Lemma elem_of_foldl_push_absent (more l : list string) (x : string) :
  x ∈ foldl push_absent l more ↔ x ∈ l ∨ x ∈ more.
Proof.
  revert l. induction more as [|f more IH]; intros l; simpl.
  - rewrite elem_of_nil. tauto.
  - rewrite IH, elem_of_push_absent, elem_of_cons. tauto.
Qed.

Lemma NoDup_foldl_push_absent (more l : list string) :
  NoDup l → NoDup (foldl push_absent l more).
Proof.
  revert l. induction more as [|f more IH]; intros l Hl; simpl; [done|].
  by apply IH, NoDup_push_absent.
Qed.

(** *** Copying errors *)

Lemma copy_errors_lookup (conditionalFieldErrors : ErrorMap) (fields : list string)
    (fieldErrors : ErrorMap) (k : string) :
  copy_errors conditionalFieldErrors fields fieldErrors !! k
  = if decide (k ∈ fields) then Some (get_error conditionalFieldErrors k)
    else fieldErrors !! k.
Proof.
  unfold copy_errors. revert fieldErrors.
  induction fields as [|f fields IH]; intros fieldErrors; simpl.
  - done.
  - rewrite IH. rewrite (decide_ext _ _ _ _ (elem_of_cons fields k f)).
    destruct (decide (k ∈ fields)) as [Hin|Hnin].
    + by rewrite decide_True by tauto.
    + destruct (decide (k = f)) as [->|Hne].
      * rewrite decide_True by tauto. by rewrite lookup_insert_eq.
      * rewrite decide_False by tauto. by rewrite lookup_insert_ne.
Qed.

(* ===================================================================== *)
(** ** The validator chain *)
(* ===================================================================== *)

(** Every entry of a computed error map is a message. *)
Lemma getFieldErrors_entries (this : InputFormValidator) (value : FormValue)
    (errs : ErrorMap) (k : string) (o : option string) :
  getFieldErrors this value = Normal errs → errs !! k = Some o → is_Some o.
Proof.
  revert errs k o.
  induction this as [|f r parent IH|predicate cv IHcv parent IH]; intros errs k o H Hk.
  - simpl in H. injection H as <-. by rewrite lookup_empty in Hk.
  - simpl in H. inv_bind H.
    destruct (includes (keysOf a) f) eqn:Hf.
    { injection H as <-. eauto. }
    inv_bind H. destruct a0; simpl in H; injection H as <-; [eauto|].
    destruct (decide (f = k)) as [->|Hne].
    + rewrite lookup_insert_eq in Hk. injection Hk as <-. eauto.
    + rewrite lookup_insert_ne in Hk by done. eauto.
  - simpl in H. inv_bind H.
    destruct (find _ _) as [missing|].
    2: { injection H as <-. eauto. }
    inv_bind H. destruct a0; simpl in H.
    2: { injection H as <-. eauto. }
    inv_bind H. injection H as <-.
    rewrite copy_errors_lookup in Hk. case_decide as Hin; [|eauto].
    apply list_elem_of_filter in Hin as [_ [o' Ho']%elem_of_keysOf].
    injection Hk as <-. unfold get_error. rewrite Ho'. simpl. eauto.
Qed.

(** Only validated fields get an entry. *)
Lemma getFieldErrors_keys (this : InputFormValidator) (value : FormValue)
    (errs : ErrorMap) (k : string) :
  getFieldErrors this value = Normal errs → is_Some (errs !! k) →
  k ∈ getValidatedFields this.
Proof.
  revert errs k.
  induction this as [|f r parent IH|predicate cv IHcv parent IH]; intros errs k H Hk.
  - simpl in H. injection H as <-. rewrite lookup_empty in Hk. by destruct Hk.
  - simpl in H. inv_bind H. simpl.
    change (k ∈ push_absent (getValidatedFields parent) f).
    apply elem_of_push_absent.
    destruct (includes (keysOf a) f) eqn:Hf.
    { injection H as <-. eauto. }
    inv_bind H. destruct a0; simpl in H; injection H as <-; [eauto|].
    destruct (decide (f = k)) as [->|Hne]; [by right|].
    rewrite lookup_insert_ne in Hk by done. eauto.
  - simpl in H. inv_bind H. simpl. apply elem_of_foldl_push_absent.
    destruct (find _ _) as [missing|].
    2: { injection H as <-. eauto. }
    inv_bind H. destruct a0; simpl in H.
    2: { injection H as <-. eauto. }
    inv_bind H. injection H as <-.
    rewrite copy_errors_lookup in Hk. case_decide as Hin; [|eauto].
    apply list_elem_of_filter in Hin as [_ Hin%elem_of_keysOf]. eauto.
Qed.

(** Evaluation returns when the callbacks of the chain do. *)
Lemma getFieldErrors_returns (this : InputFormValidator) (value : FormValue) :
  callbacks_return this value → returns (getFieldErrors this value).
Proof.
  induction this as [|f r parent IH|predicate cv IHcv parent IH]; simpl.
  - auto.
  - intros [[errs Hp]%IH [ok Hr]]. rewrite Hp. simpl.
    destruct (includes _ _); [auto|]. rewrite Hr. simpl. destruct ok; simpl; auto.
  - intros ([errs Hp]%IH & [holds Hr] & [cerrs Hc]%IHcv). rewrite Hp. simpl.
    destruct (find _ _); [|auto]. rewrite Hr. simpl.
    destruct holds; simpl; [|auto]. rewrite Hc. simpl. auto.
Qed.

Lemma isFieldValid_returns (this : InputFormValidator) (field : string)
    (value : FormValue) :
  callbacks_return this value → returns (isFieldValid this field value).
Proof.
  induction this as [|f r parent IH|predicate cv IHcv parent IH]; simpl.
  - auto.
  - intros [[ok Hp]%IH Hr]. rewrite Hp. simpl.
    destruct ok; simpl; [|auto]. case_bool_decide as Hf; simpl; [|auto]. by subst.
  - intros ([ok Hp]%IH & [holds Hr] & Hc%IHcv). rewrite Hp. simpl.
    destruct ok; simpl; [|auto]. rewrite Hr. simpl. destruct holds; auto.
Qed.

(** An entry, once made, survives every rule appended later. *)
Lemma getFieldErrors_extends (base later : InputFormValidator) (value : FormValue)
    (errs0 errs : ErrorMap) (k : string) (o : option string) :
  extends base later →
  getFieldErrors base value = Normal errs0 → errs0 !! k = Some o →
  getFieldErrors later value = Normal errs → errs !! k = Some o.
Proof.
  intros Hext Hbase Hk. revert errs.
  induction Hext as [|f r parent Hext IH|predicate cv parent Hext IH]; intros errs H.
  - congruence.
  - simpl in H. inv_bind H. specialize (IH _ Ha).
    destruct (includes (keysOf a) f) eqn:Hf.
    { by injection H as <-. }
    inv_bind H. destruct a0; simpl in H; injection H as <-; [done|].
    apply includes_false, not_elem_of_keysOf in Hf.
    rewrite lookup_insert_ne; [done|]. intros ->. congruence.
  - simpl in H. inv_bind H. specialize (IH _ Ha).
    destruct (find _ _) as [missing|].
    2: { by injection H as <-. }
    inv_bind H. destruct a0; simpl in H.
    2: { by injection H as <-. }
    inv_bind H. injection H as <-.
    rewrite copy_errors_lookup. case_decide as Hin; [|done].
    apply list_elem_of_filter in Hin as [Hnew _]. destruct Hnew.
    apply Is_true_true, includes_true, elem_of_keysOf. eauto.
Qed.

Lemma extends_trans (a b c : InputFormValidator) :
  extends a b → extends b c → extends a c.
Proof.
  intros Hab Hbc. induction Hbc; [done| |]; by constructor.
Qed.

Lemma callbacks_return_extends (base later : InputFormValidator) (value : FormValue) :
  extends base later → callbacks_return later value → callbacks_return base value.
Proof.
  induction 1 as [|f r parent Hext IH|predicate cv parent Hext IH]; simpl;
    [done|intros [H _]|intros [H _]]; auto.
Qed.

(** A failing rule on a field without an entry makes the entry. *)
Lemma getFieldErrors_failing_rule (parent : InputFormValidator) (field : string)
    (rule : InputFieldValidator) (value : FormValue) (errs0 : ErrorMap) :
  getFieldErrors parent value = Normal errs0 → errs0 !! field = None →
  validate rule (get_field value field) value = Normal false →
  getFieldErrors (ChildInputFormValidator field rule parent) value
  = Normal (<[field := Some (error rule)]> errs0).
Proof.
  intros Hp Hnone Hfail. simpl. rewrite Hp. simpl.
  apply not_elem_of_keysOf, includes_false in Hnone. rewrite Hnone, Hfail. done.
Qed.

(** A rule on a field that has an entry already is passed over. *)
Lemma getFieldErrors_skipped_rule (parent : InputFormValidator) (field : string)
    (rule : InputFieldValidator) (value : FormValue) (errs0 : ErrorMap) :
  getFieldErrors parent value = Normal errs0 → is_Some (errs0 !! field) →
  getFieldErrors (ChildInputFormValidator field rule parent) value = Normal errs0.
Proof.
  intros Hp Hsome. simpl. rewrite Hp. simpl.
  by rewrite (proj2 (includes_true _ _)) by (by apply elem_of_keysOf).
Qed.

(** A field the chain has no rule for has no entry. *)
Lemma getFieldErrors_not_validated (this : InputFormValidator) (value : FormValue)
    (errs : ErrorMap) (field : string) :
  field ∉ getValidatedFields this → getFieldErrors this value = Normal errs →
  errs !! field = None.
Proof.
  intros Hfresh Herrs. apply eq_None_not_Some. intros Hsome. apply Hfresh.
  eapply getFieldErrors_keys; eauto.
Qed.

(** First rule wins on a field named by a string: when a chain holds two
    rules on the same field, no rule below the first of them has reported the
    field, and that first rule fails on the form value, [getFieldErrors]
    returns a map whose entry for the field is the first rule's message,
    whatever the later rule is and whatever else was appended in between or
    afterwards; the later rule is passed over: its node returns what the
    chain below it returned. *)
Theorem first_rule_wins (parent mid later : InputFormValidator) (field : string)
    (first second : InputFieldValidator) (value : FormValue) (errs0 : ErrorMap) :
  getFieldErrors parent value = Normal errs0 → errs0 !! field = None →
  extends (ChildInputFormValidator field first parent) mid →
  extends (ChildInputFormValidator field second mid) later →
  callbacks_return later value →
  validate first (get_field value field) value = Normal false →
  (∃ errs, getFieldErrors later value = Normal errs
           ∧ errs !! field = Some (Some (error first)))
  ∧ getFieldErrors (ChildInputFormValidator field second mid) value
    = getFieldErrors mid value.
Proof.
  intros Herrs0 Hnone Hmid Hlater Hcb Hfail.
  assert (Hext : extends (ChildInputFormValidator field first parent) later).
  { eapply extends_trans; [exact Hmid|]. eapply extends_trans; [|exact Hlater].
    constructor. constructor. }
  pose proof (getFieldErrors_failing_rule _ _ first _ _ Herrs0 Hnone Hfail) as Hfirst.
  split.
  - destruct (getFieldErrors_returns _ _ Hcb) as [errs Herrs]. exists errs.
    split; [done|].
    eapply getFieldErrors_extends; [exact Hext|exact Hfirst| |exact Herrs].
    apply lookup_insert_eq.
  - pose proof (callbacks_return_extends _ _ _ Hlater Hcb) as [Hcbmid _].
    destruct (getFieldErrors_returns _ _ Hcbmid) as [errs1 Herrs1].
    rewrite Herrs1. apply getFieldErrors_skipped_rule; [done|].
    exists (Some (error first)).
    eapply getFieldErrors_extends; [exact Hmid|exact Hfirst| |exact Herrs1].
    apply lookup_insert_eq.
Qed.

Lemma first_rule_wins_witness :
  ∃ errs,
    getFieldErrors
      (minLength "name" "Too short" (num_of_nat 3)
         (notBlank "name" "Required" NoopInputFormValidator))
      (object 0 [("name", JString (js ""))]) = Normal errs
    ∧ errs !! "name" = Some (Some "Required").
Proof.
  refine (proj1 (first_rule_wins NoopInputFormValidator
           (notBlank "name" "Required" NoopInputFormValidator)
           (minLength "name" "Too short" (num_of_nat 3)
              (notBlank "name" "Required" NoopInputFormValidator))
           "name"
           {| error := "Required";
              validate := fun fieldValue formValue =>
                match fieldValue with
                | JString str => mret (negb (str_eqb (trim str) []))
                | _ => mret false
                end |}
           {| error := "Too short";
              validate := fun fieldValue formValue =>
                match fieldValue with
                | JString str => mret (num_leb (num_of_nat 3) (num_of_nat (length str)))
                | _ => mret false
                end |}
           (object 0 [("name", JString (js ""))]) ∅ _ _ _ _ _ _)).
  - reflexivity.
  - reflexivity.
  - apply extends_refl.
  - apply extends_refl.
  - simpl. repeat split; eexists; reflexivity.
  - reflexivity.
Defined.

(** *** Fields named by numbers *)

Lemma name_eqb_true (a b : Keyed.FieldName) : Keyed.name_eqb a b = true ↔ a = b.
Proof.
  destruct a as [s|n], b as [t|m]; simpl; rewrite ?bool_decide_eq_true;
    split; congruence.
Qed.

Lemma includes_name_true (names : list Keyed.FieldName) (x : Keyed.FieldName) :
  Keyed.includes_name names x = true ↔ x ∈ names.
Proof.
  unfold Keyed.includes_name. rewrite existsb_exists. split.
  - intros (y & Hin & <-%name_eqb_true). by apply list_elem_of_In.
  - intros Hin. exists x. split; [by apply list_elem_of_In|by apply name_eqb_true].
Qed.

Lemma includes_name_false (names : list Keyed.FieldName) (x : Keyed.FieldName) :
  Keyed.includes_name names x = false ↔ x ∉ names.
Proof. rewrite <- includes_name_true. by destruct (Keyed.includes_name names x). Qed.

Lemma includes_name_strings (l : list string) (s : string) :
  Keyed.includes_name (Keyed.NameString <$> l) (Keyed.NameString s) = includes l s.
Proof.
  apply eq_true_iff_eq. rewrite includes_name_true, includes_true.
  rewrite list_elem_of_fmap. split.
  - intros (t & [= ->] & Hin). done.
  - intros Hin. eauto.
Qed.

Lemma push_absent_strings (l : list string) (s : string) :
  Keyed.push_absent (Keyed.NameString <$> l) (Keyed.NameString s)
  = Keyed.NameString <$> push_absent l s.
Proof.
  unfold Keyed.push_absent, push_absent. rewrite includes_name_strings.
  destruct (includes l s); [done|]. by rewrite fmap_app.
Qed.

Lemma foldl_push_absent_strings (more l : list string) :
  foldl Keyed.push_absent (Keyed.NameString <$> l) (Keyed.NameString <$> more)
  = Keyed.NameString <$> foldl push_absent l more.
Proof.
  revert l. induction more as [|s more IH]; intros l; simpl; [done|].
  by rewrite push_absent_strings, IH.
Qed.

(** On a chain whose names are strings, the chain over names of both kinds
    is the chain over strings. *)
Lemma embed_getValidatedFields (this : InputFormValidator) :
  Keyed.getValidatedFields (embed this) = Keyed.NameString <$> getValidatedFields this.
Proof.
  induction this as [|field rule parent IH|predicate cv IHcv parent IH]; simpl.
  - done.
  - rewrite IH, includes_name_strings.
    destruct (includes (getValidatedFields parent) field); [done|].
    by rewrite fmap_app.
  - by rewrite IH, IHcv, foldl_push_absent_strings.
Qed.

Lemma find_keys_include_strings (keys l : list string) :
  find (fun field => negb (Keyed.keys_include keys field)) (Keyed.NameString <$> l)
  = Keyed.NameString <$> find (fun field => negb (includes keys field)) l.
Proof.
  induction l as [|s l IH]; simpl; [done|].
  destruct (includes keys s); simpl; [exact IH|done].
Qed.

Lemma embed_getFieldErrors (this : InputFormValidator) (value : FormValue) :
  Keyed.getFieldErrors (embed this) value = getFieldErrors this value.
Proof.
  induction this as [|field rule parent IH|predicate cv IHcv parent IH]; simpl.
  - done.
  - by rewrite IH.
  - rewrite IH. destruct (getFieldErrors parent value) as [errs0|e]; simpl; [|done].
    rewrite embed_getValidatedFields, find_keys_include_strings.
    destruct (find _ (getValidatedFields cv)); simpl; [|done].
    by rewrite IHcv.
Qed.

Lemma embed_isFieldValid (this : InputFormValidator) (field : string) (value : FormValue) :
  Keyed.isFieldValid (embed this) (Keyed.NameString field) value
  = isFieldValid this field value.
Proof.
  induction this as [|g rule parent IH|predicate cv IHcv parent IH]; simpl.
  - done.
  - by rewrite IH.
  - by rewrite IH, IHcv.
Qed.

Lemma string_named_embed (chain : Keyed.InputFormValidator) :
  Keyed.string_named chain → ∃ this, chain = embed this.
Proof.
  induction chain as [|name rule parent IH|predicate cv IHcv parent IH]; simpl.
  - intros _. by exists NoopInputFormValidator.
  - intros [[s ->] [this ->]%IH]. by exists (ChildInputFormValidator s rule this).
  - intros [[sub ->]%IHcv [this ->]%IH].
    by exists (ConditionalInputFormValidator predicate sub this).
Qed.

(** A rule on a field named by a number is never passed over: whatever the
    chain below has reported, a failing rule writes its message under the
    field's property key. *)
Lemma numeric_field_rule_never_skipped (n : N) (rule : InputFieldValidator)
    (mid : Keyed.InputFormValidator) (value : FormValue) (errs : ErrorMap) :
  Keyed.getFieldErrors mid value = Normal errs →
  validate rule (get_field value (Keyed.property_key (Keyed.NameNumber n))) value
  = Normal false →
  Keyed.getFieldErrors (Keyed.ChildInputFormValidator (Keyed.NameNumber n) rule mid) value
  = Normal (<[Keyed.property_key (Keyed.NameNumber n) := Some (error rule)]> errs).
Proof. intros Hmid Hfail. simpl in Hfail |- *. rewrite Hmid. simpl. by rewrite Hfail. Qed.

(** C4. The first-rule-wins property fails on a field named by a number.
    For the form value [{0: ''}], the chain
    [notBlank(0, 'Required').minLength(0, 'Too short', 3)] reports the
    message of the second rule: the first rule alone has reported
    ['Required'] under the key ['0'], the second rule looks for the number
    [0] among the keys, does not find it, runs and overwrites the entry.
    The same two rules on the field named by the string ['0'] report the
    first message. *)
Theorem numeric_field_later_rule_overwrites :
  Keyed.getFieldErrors
    (Keyed.notBlank (Keyed.NameNumber 0) "Required" Keyed.NoopInputFormValidator)
    (object 0 [("0", JString (js ""))])
  = Normal {["0" := Some "Required"]}
  ∧ Keyed.getFieldErrors
      (Keyed.minLength (Keyed.NameNumber 0) "Too short" (num_of_nat 3)
         (Keyed.notBlank (Keyed.NameNumber 0) "Required" Keyed.NoopInputFormValidator))
      (object 0 [("0", JString (js ""))])
    = Normal {["0" := Some "Too short"]}
  ∧ Keyed.getFieldErrors
      (Keyed.minLength (Keyed.NameString "0") "Too short" (num_of_nat 3)
         (Keyed.notBlank (Keyed.NameString "0") "Required" Keyed.NoopInputFormValidator))
      (object 0 [("0", JString (js ""))])
    = Normal {["0" := Some "Required"]}.
Proof. split_and!; reflexivity. Qed.

(** *** Conditional sub-chains *)

Lemma trimStart_whitespace (s : JsString) :
  Forall (fun c => isWhiteSpace c = true) s → trimStart s = [].
Proof.
  induction 1 as [|c s Hc _ IH]; simpl; [done|]. by rewrite Hc.
Qed.

Lemma trim_whitespace (s : JsString) :
  Forall (fun c => isWhiteSpace c = true) s → trim s = [].
Proof.
  intros H. unfold trim, trimEnd. by rewrite (trimStart_whitespace s H).
Qed.

(** A conditional node whose condition is false passes the parent's errors
    through. *)
Lemma getFieldErrors_condition_false (predicate : FormValue → Completion bool)
    (cv parent : InputFormValidator) (value : FormValue) (errs0 : ErrorMap) :
  getFieldErrors parent value = Normal errs0 → predicate value = Normal false →
  getFieldErrors (ConditionalInputFormValidator predicate cv parent) value = Normal errs0.
Proof.
  intros Hp Hpred. simpl. rewrite Hp. simpl.
  destruct (find _ _); [|done]. by rewrite Hpred.
Qed.

(** A conditional node whose condition holds, and whose sub-chain validates
    a field the parent has no entry for, adds the sub-chain's entries for the
    fields the parent has none for. *)
Lemma getFieldErrors_condition_true (predicate : FormValue → Completion bool)
    (cv parent : InputFormValidator) (value : FormValue) (errs0 cerrs : ErrorMap)
    (f : string) :
  getFieldErrors parent value = Normal errs0 → predicate value = Normal true →
  f ∈ getValidatedFields cv → errs0 !! f = None →
  getFieldErrors cv value = Normal cerrs →
  ∃ errs,
    getFieldErrors (ConditionalInputFormValidator predicate cv parent) value = Normal errs
    ∧ ∀ k, errs !! k = match errs0 !! k with
                       | Some o => Some o
                       | None => cerrs !! k
                       end.
Proof.
  intros Hp Hpred Hf Hnone Hc. simpl. rewrite Hp. simpl.
  destruct (find _ _) as [missing|] eqn:Hfind.
  2: { rewrite find_none_iff in Hfind. specialize (Hfind f Hf).
       apply negb_false_iff, includes_true, elem_of_keysOf in Hfind.
       rewrite Hnone in Hfind. by destruct Hfind. }
  rewrite Hpred. simpl. rewrite Hc. simpl. eexists. split; [reflexivity|].
  intros k. rewrite copy_errors_lookup. case_decide as Hin.
  - apply list_elem_of_filter in Hin as [Hnew [o Ho]%elem_of_keysOf].
    assert (errs0 !! k = None) as ->.
    { apply not_elem_of_keysOf. intros Hk. apply Hnew, Is_true_true.
      by apply includes_true. }
    unfold get_error. rewrite Ho. by destruct o.
  - destruct (errs0 !! k) as [o|] eqn:Hk; [done|].
    destruct (cerrs !! k) as [o|] eqn:Hck; [|done].
    destruct Hin. apply list_elem_of_filter. split.
    + intros Hk'%Is_true_true%includes_true%elem_of_keysOf.
      rewrite Hk in Hk'. by destruct Hk'.
    + apply elem_of_keysOf. eauto.
Qed.

Lemma getValidatedFields_child_fresh (field : string) (rule : InputFieldValidator) :
  getValidatedFields (ChildInputFormValidator field rule NoopInputFormValidator) = [field].
Proof.
  cbn [getValidatedFields].
  by rewrite (proj2 (includes_false [] field)) by apply not_elem_of_nil.
Qed.



(** *** Validated fields *)

Lemma includes_ext (l1 l2 : list string) (x : string) :
  (x ∈ l1 ↔ x ∈ l2) → includes l1 x = includes l2 x.
Proof. intros H. unfold includes. by apply bool_decide_ext. Qed.

Lemma elem_of_first_occurrences (seen l : list string) (x : string) :
  x ∈ first_occurrences seen l ↔ x ∈ l ∧ x ∉ seen.
Proof.
  revert seen. induction l as [|a l IH]; intros seen; simpl.
  - rewrite elem_of_nil. tauto.
  - destruct (includes seen a) eqn:Ha.
    + apply includes_true in Ha. rewrite IH, elem_of_cons. split; [tauto|].
      intros [[->|?] ?]; tauto.
    + apply includes_false in Ha. rewrite !elem_of_cons, IH, elem_of_cons. split.
      * intros [->|(? & ?)]; [tauto|]. split; [tauto|]. tauto.
      * intros [[->|?] ?]; [tauto|]. destruct (decide (x = a)); tauto.
Qed.

Lemma first_occurrences_snoc (seen l : list string) (x : string) :
  first_occurrences seen (l ++ [x])
  = first_occurrences seen l ++ (if includes (seen ++ l) x then [] else [x]).
Proof.
  revert seen. induction l as [|a l IH]; intros seen; simpl.
  - by rewrite app_nil_r.
  - destruct (includes seen a) eqn:Ha.
    + apply includes_true in Ha. rewrite IH. f_equal.
      rewrite (includes_ext (seen ++ l) (seen ++ a :: l) x); [done|].
      rewrite !elem_of_app, elem_of_cons. split; [tauto|].
      intros [?|[->|?]]; tauto.
    + rewrite IH. simpl. do 2 f_equal.
      rewrite (includes_ext (a :: seen ++ l) (seen ++ a :: l) x); [done|].
      rewrite !elem_of_app, !elem_of_cons, elem_of_app. tauto.
Qed.

Lemma NoDup_getValidatedFields (this : InputFormValidator) :
  NoDup (getValidatedFields this).
Proof.
  induction this as [|f r parent IH|predicate cv IHcv parent IH]; simpl.
  - apply NoDup_nil_2.
  - by apply (NoDup_push_absent _ f).
  - by apply NoDup_foldl_push_absent.
Qed.

(** C6 (amended). For a chain built from [require] and the typed builders only
    (no [when]), [getValidatedFields] lists every targeted field exactly once,
    in the order in which the first rule for each field was appended; for a
    field-rule node the result is the parent's list followed by the node's own
    field, and the parent's list alone when it has the field already. *)
Theorem getValidatedFields_first_append_order (chain : InputFormValidator) :
  no_when chain →
  NoDup (getValidatedFields chain)
  ∧ getValidatedFields chain = first_occurrences [] (appended_fields chain)
  ∧ (∀ field, field ∈ getValidatedFields chain ↔ field ∈ appended_fields chain)
  ∧ (∀ field rule parent,
       chain = ChildInputFormValidator field rule parent →
       getValidatedFields chain
       = if bool_decide (field ∈ getValidatedFields parent)
         then getValidatedFields parent
         else getValidatedFields parent ++ [field]).
Proof.
  intros Hnw.
  assert (Heq : getValidatedFields chain = first_occurrences [] (appended_fields chain)).
  { induction chain as [|f r parent IH|predicate cv IHcv parent IH]; simpl in *;
      [done| |done].
    rewrite first_occurrences_snoc, <- (IH Hnw). simpl.
    rewrite (includes_ext (getValidatedFields parent) (appended_fields parent) f).
    - destruct (includes (appended_fields parent) f); [by rewrite app_nil_r|done].
    - rewrite (IH Hnw), elem_of_first_occurrences. rewrite elem_of_nil. tauto. }
  split_and!.
  - apply NoDup_getValidatedFields.
  - exact Heq.
  - intros field. rewrite Heq, elem_of_first_occurrences, elem_of_nil. tauto.
  - intros field rule parent ->. reflexivity.
Qed.

Lemma getValidatedFields_first_append_order_witness :
  getValidatedFields
    (minLength "name" "Too short" (num_of_nat 3)
       (notUndefined "age" "Required"
          (notBlank "name" "Required" NoopInputFormValidator)))
  = ["name"; "age"].
Proof.
  pose proof (getValidatedFields_first_append_order
                (minLength "name" "Too short" (num_of_nat 3)
                   (notUndefined "age" "Required"
                      (notBlank "name" "Required" NoopInputFormValidator))) I)
    as (_ & H & _).
  rewrite H. reflexivity.
Defined.

(** C6 as stated fails in what it says of field-rule nodes: the node's own
    field is not the first of the result, it comes after the parent's. *)
Lemma own_field_comes_last :
  ¬ (∀ (field : string) (rule : InputFieldValidator) (parent : InputFormValidator),
       no_when parent →
       head (getValidatedFields (ChildInputFormValidator field rule parent)) = Some field).
Proof.
  intros H.
  specialize (H "b" {| error := "B"; validate := fun _ _ => mret true |}
                (notBlank "a" "A" NoopInputFormValidator) I).
  discriminate H.
Qed.

(** *** Field rules and shapes *)

(** A rule that fails on the field's value makes the field invalid, whatever
    the parent chain says, once the parent has been evaluated. *)
Lemma failing_rule_invalid (this : InputFormValidator) (field : string)
    (rule : InputFieldValidator) (value : FormValue) (errs0 : ErrorMap) :
  returns (isFieldValid this field value) →
  getFieldErrors this value = Normal errs0 →
  validate rule (get_field value field) value = Normal false →
  isFieldValid (ChildInputFormValidator field rule this) field value = Normal false
  ∧ ∃ errs msg,
      getFieldErrors (ChildInputFormValidator field rule this) value = Normal errs
      ∧ errs !! field = Some (Some msg).
Proof.
  intros [ok Hok] Herrs Hfail. split.
  - simpl. rewrite Hok. simpl. destruct ok; simpl; [|done].
    by rewrite bool_decide_eq_true_2.
  - destruct (errs0 !! field) as [o|] eqn:Hfield.
    + destruct (getFieldErrors_entries _ _ _ _ _ Herrs Hfield) as [msg ->].
      exists errs0, msg. split; [|done]. simpl. rewrite Herrs. simpl.
      rewrite (proj2 (includes_true _ _)); [done|]. apply elem_of_keysOf. eauto.
    + exists (<[field := Some (error rule)]> errs0), (error rule).
      split; [by apply getFieldErrors_failing_rule|apply lookup_insert_eq].
Qed.

(** The rule a typed builder appends fails on every value of another shape. *)
Lemma typed_call_rule (URL_new : JsString → Completion URL) (c : BuilderCall)
    (shape : Shape) (field : string) (this chain : InputFormValidator) :
  call_shape c = Some shape → call_field c = Some field →
  call URL_new c this = Normal chain →
  ∃ rule, chain = ChildInputFormValidator field rule this
          ∧ ∀ v formValue, has_shape shape v = false →
                           validate rule v formValue = Normal false.
Proof.
  intros Hshape Hfield Hcall.
  destruct c; simpl in *; try discriminate;
    injection Hshape as <-; injection Hfield as <-.
  all: try (injection Hcall as <-; eexists; split; [reflexivity|];
            intros [] ? ?; simpl in *; done).
  unfold pattern in Hcall. inv_bind Hcall. injection Hcall as <-.
  eexists; split; [reflexivity|]. intros [] ? ?; simpl in *; done.
Qed.

Lemma has_shape_undefined (shape : Shape) : has_shape shape JUndefined = false.
Proof. by destruct shape. Qed.

(** C3 (amended). On top of a chain that has been evaluated on the form
    value: (1) the rule appended by a typed builder (a string validator, a
    number validator or [notEmpty]) classifies the targeted field as invalid
    when its value is [undefined] or of another runtime shape than the builder
    requires: [isFieldValid] is false and the error map has a message for the
    field; (2) [notEquals] leaves an [undefined] field as the chain had it
    unless the excluded value is [undefined] itself. *)
Theorem typed_builders_reject_other_shapes (URL_new : JsString → Completion URL)
    (this : InputFormValidator) (field : string) (value : FormValue)
    (parentValid : bool) (errs0 : ErrorMap) :
  isFieldValid this field value = Normal parentValid →
  getFieldErrors this value = Normal errs0 →
  (∀ c shape chain,
     call_shape c = Some shape → call_field c = Some field →
     call URL_new c this = Normal chain →
     get_field value field = JUndefined
     ∨ has_shape shape (get_field value field) = false →
     isFieldValid chain field value = Normal false
     ∧ ∃ errs msg, getFieldErrors chain value = Normal errs
                   ∧ errs !! field = Some (Some msg))
  ∧ (∀ invalidValue error,
       get_field value field = JUndefined →
       isFieldValid (notEquals field invalidValue error this) field value
       = Normal (parentValid && negb (strict_equals JUndefined invalidValue))).
Proof.
  intros Hvalid Herrs. split.
  - intros c shape chain Hshape Hfield Hcall Hvalue.
    destruct (typed_call_rule _ _ _ _ _ _ Hshape Hfield Hcall) as (rule & -> & Hrule).
    apply (failing_rule_invalid _ _ _ _ errs0); [by exists parentValid|done|].
    apply Hrule. destruct Hvalue as [->|H]; [apply has_shape_undefined|done].
  - intros invalidValue error Hundef. simpl. rewrite Hvalid. simpl.
    destruct parentValid; simpl; [|done].
    rewrite bool_decide_eq_true_2 by done. simpl. by rewrite Hundef.
Qed.

Lemma typed_builders_reject_other_shapes_witness :
  isFieldValid (minLength "name" "Too short" (num_of_nat 3) NoopInputFormValidator)
    "name" (object 0 [("name", JNumber (num_of_nat 42))]) = Normal false
  ∧ ∃ errs msg,
      getFieldErrors (minLength "name" "Too short" (num_of_nat 3) NoopInputFormValidator)
        (object 0 [("name", JNumber (num_of_nat 42))]) = Normal errs
      ∧ errs !! "name" = Some (Some msg).
Proof.
  destruct (typed_builders_reject_other_shapes
              (fun _ => Throw (TypeError "Invalid URL")) NoopInputFormValidator "name"
              (object 0 [("name", JNumber (num_of_nat 42))]) true ∅
              eq_refl eq_refl) as [H _].
  apply (H (CallMinLength "name" "Too short" (num_of_nat 3)) ShapeString
           (minLength "name" "Too short" (num_of_nat 3) NoopInputFormValidator)
           eq_refl eq_refl eq_refl).
  right. reflexivity.
Defined.

(** C3 as stated fails for [notEquals]: with a field that is [undefined] and
    an excluded value that is not, the rule holds and no error is reported. *)
Lemma notEquals_accepts_undefined :
  isFieldValid (notEquals "x" (JString (js "forbidden")) "E" NoopInputFormValidator)
    "x" (object 0 [("x", JUndefined)]) = Normal true
  ∧ getFieldErrors (notEquals "x" (JString (js "forbidden")) "E" NoopInputFormValidator)
      (object 0 [("x", JUndefined)]) = Normal ∅.
Proof. split; reflexivity. Qed.

(** *** What throws *)

(** The rules appended by the builders that take no callback return on every
    form value. *)
Lemma callback_free_rule_returns (URL_new : JsString → Completion URL) (c : BuilderCall)
    (this chain : InputFormValidator) (value : FormValue) :
  callback_free c = true → call URL_new c this = Normal chain →
  callbacks_return this value → callbacks_return chain value.
Proof.
  intros Hfree Hcall Hthis.
  destruct c; simpl in *; try discriminate.
  all: try (injection Hcall as <-; simpl; split; [done|];
            try destruct (get_field value _); auto).
  unfold pattern in Hcall. inv_bind Hcall. injection Hcall as <-.
  simpl. split; [done|]. destruct (get_field value _); auto.
Qed.

Lemma call_returns (URL_new : JsString → Completion URL) (c : BuilderCall)
    (this : InputFormValidator) :
  returns (call URL_new c this) ↔ call_accepted c.
Proof.
  destruct c; simpl; try (split; auto; fail).
  - unfold when. rewrite bind_returns. split.
    + intros (sub & -> & _). auto.
    + intros [sub ->]. eauto.
  - unfold pattern. rewrite bind_returns. destruct pattern0; simpl.
    + split; [intros (r & -> & _); auto|intros [r ->]; eauto].
    + split; eauto.
  - unfold validMail, pattern. simpl. split; auto.
Qed.

Lemma build_callbacks_return (URL_new : JsString → Completion URL)
    (calls : list BuilderCall) (this chain : InputFormValidator) (value : FormValue) :
  Forall (fun c => callback_free c = true) calls →
  build URL_new calls this = Normal chain →
  callbacks_return this value → callbacks_return chain value.
Proof.
  intros Hfree. revert this.
  induction Hfree as [|c calls Hc _ IH]; intros this Hbuild Hthis; simpl in Hbuild.
  - by injection Hbuild as <-.
  - inv_bind Hbuild. apply (IH a); [done|].
    by apply (callback_free_rule_returns URL_new c this).
Qed.



(* ===================================================================== *)
(** ** The field projection *)
(* ===================================================================== *)

Lemma get_args (this : InputFormFieldsHandler) (key : PropertyKey) :
  args (get this key).2 = args this.
Proof. destruct key as [name|id]; simpl; [|done]. by destruct (fields this !! name). Qed.

Lemma get_cache_ok (this : InputFormFieldsHandler) (key : PropertyKey) :
  cache_ok this → cache_ok (get this key).2.
Proof.
  intros Hok. destruct key as [name|id]; simpl; [|done].
  destruct (fields this !! name) eqn:Hname; [done|].
  intros k field. simpl. destruct (decide (name = k)) as [->|Hne].
  - rewrite lookup_insert_eq. by intros [= <-].
  - rewrite lookup_insert_ne by done. apply Hok.
Qed.

(** [get] never removes or replaces a cached accessor. *)
Lemma get_keeps (this : InputFormFieldsHandler) (key : PropertyKey)
    (k : string) (field : InputFormField) :
  fields this !! k = Some field → fields (get this key).2 !! k = Some field.
Proof.
  intros Hk. destruct key as [name|id]; simpl; [|done].
  destruct (fields this !! name) eqn:Hname; [done|]. simpl.
  rewrite lookup_insert_ne; [done|]. intros ->. congruence.
Qed.

(** [get] with a string key returns the accessor it has cached. *)
Lemma get_cached (this : InputFormFieldsHandler) (name : string) :
  (get this (KeyString name)).1
  = fields (get this (KeyString name)).2 !! name
  ∧ is_Some (fields (get this (KeyString name)).2 !! name).
Proof.
  simpl. split; [done|]. destruct (fields this !! name) eqn:Hname; [eauto|].
  simpl. rewrite lookup_insert_eq. eauto.
Qed.

Lemma createInputFormFields_cache_ok (formValue : FormValue) (touchedFields : list string)
    (errors : ErrorMap) :
  cache_ok (createInputFormFields formValue touchedFields errors).
Proof. intros name field. simpl. by rewrite lookup_empty. Qed.

Lemma handler_reaches_invariant (start this : InputFormFieldsHandler) :
  handler_reaches start this → cache_ok start →
  cache_ok this ∧ args this = args start.
Proof.
  induction 1 as [|this key Hreach IH]; intros Hstart; [done|].
  destruct (IH Hstart) as [Hok Hargs]. split.
  - by apply get_cache_ok.
  - by rewrite get_args.
Qed.

Lemma handler_reaches_keeps (start this : InputFormFieldsHandler) (k : string)
    (field : InputFormField) :
  handler_reaches start this → fields start !! k = Some field →
  fields this !! k = Some field.
Proof.
  induction 1 as [|this key Hreach IH]; intros Hk; [done|].
  by apply get_keeps, IH.
Qed.

(** The accessors of a projection are the proxy fields of its arguments. *)
Lemma projection_accessor (formValue : FormValue) (touchedFields : list string)
    (errors : ErrorMap) (this : InputFormFieldsHandler) (name : string)
    (field : InputFormField) :
  handler_reaches (createInputFormFields formValue touchedFields errors) this →
  (get this (KeyString name)).1 = Some field →
  field = ProxyField {| formValue := formValue; touchedFields := touchedFields;
                        errors := errors |} name.
Proof.
  intros Hreach Hget.
  destruct (handler_reaches_invariant _ _
              (reaches_get _ _ (KeyString name) Hreach)
              (createInputFormFields_cache_ok _ _ _)) as [Hok Hargs].
  rewrite (proj1 (get_cached this name)) in Hget.
  apply Hok in Hget. by rewrite Hget, Hargs.
Qed.

(** An accessor returned by [get] stays in the cache, and [map] finds it. *)
Lemma map_field_cached (formValue : FormValue) (touchedFields : list string)
    (errors : ErrorMap) (this later : InputFormFieldsHandler) (name : string)
    (field : InputFormField) (mapper inversMapper : JsValue → JsValue) :
  handler_reaches (createInputFormFields formValue touchedFields errors) this →
  (get this (KeyString name)).1 = Some field →
  handler_reaches (get this (KeyString name)).2 later →
  fields later !! name = Some field
  ∧ map_field later field mapper inversMapper
    = Normal (MappedInputFormField field mapper inversMapper).
Proof.
  intros Hreach Hget Hlater.
  assert (Hcached : fields (get this (KeyString name)).2 !! name = Some field).
  { by rewrite <- (proj1 (get_cached this name)). }
  pose proof (handler_reaches_keeps _ _ _ _ Hlater Hcached) as Hkept.
  split; [done|].
  rewrite (projection_accessor _ _ _ _ _ _ Hreach Hget) in *. simpl. by rewrite Hkept.
Qed.

(** C10. Mapping an accessor of the projection never throws: [get] with a
    string key stores the accessor in the handler's cache before returning it,
    the cache only grows afterwards, so whenever [map] is called later its
    lookup of the accessor succeeds and it returns the mapped field. *)
Theorem map_never_throws (formValue : FormValue) (touchedFields : list string)
    (errors : ErrorMap) (this later : InputFormFieldsHandler) (name : string)
    (field : InputFormField) (mapper inversMapper : JsValue → JsValue) :
  handler_reaches (createInputFormFields formValue touchedFields errors) this →
  (get this (KeyString name)).1 = Some field →
  handler_reaches (get this (KeyString name)).2 later →
  fields (get this (KeyString name)).2 !! name = Some field
  ∧ fields later !! name = Some field
  ∧ map_field later field mapper inversMapper
    = Normal (MappedInputFormField field mapper inversMapper).
Proof.
  intros Hreach Hget Hlater. split.
  - by rewrite <- (proj1 (get_cached this name)).
  - by apply (map_field_cached formValue touchedFields errors this).
Qed.

Lemma map_never_throws_witness :
  map_field
    (get
       (get (createInputFormFields (object 0 [("name", JString (js "a"))]) [] ∅)
          (KeyString "name")).2
       (KeyString "mail")).2
    (ProxyField {| formValue := object 0 [("name", JString (js "a"))];
                   touchedFields := []; errors := ∅ |} "name")
    id id
  = Normal
      (MappedInputFormField
         (ProxyField {| formValue := object 0 [("name", JString (js "a"))];
                        touchedFields := []; errors := ∅ |} "name")
         id id).
Proof.
  apply (map_never_throws (object 0 [("name", JString (js "a"))]) [] ∅
           (createInputFormFields (object 0 [("name", JString (js "a"))]) [] ∅)
           (get
              (get (createInputFormFields (object 0 [("name", JString (js "a"))]) [] ∅)
                 (KeyString "name")).2
              (KeyString "mail")).2
           "name"
           (ProxyField {| formValue := object 0 [("name", JString (js "a"))];
                          touchedFields := []; errors := ∅ |} "name")
           id id).
  - apply reaches_here.
  - reflexivity.
  - apply reaches_get, reaches_here.
Defined.

(** C8. An accessor (mapped or not) whose field has the empty string as its
    entry in the error map is invalid and not valid, and has no error message
    to show; with a non-empty entry the error message is the entry. *)
Theorem empty_error_is_invalid_and_hidden (field : InputFormField) (this : HandlerArgs)
    (name : string) :
  underlying field = (this, name) →
  (errors this !! name = Some (Some "") →
   isInvalid field = true ∧ isValid field = false ∧ getErrorMessage field = None)
  ∧ (∀ message, message ≠ "" → errors this !! name = Some (Some message) →
       isInvalid field = true ∧ getErrorMessage field = Some message).
Proof.
  induction field as [this' name'|delegate IH mapper inverseMapper]; simpl; [|done].
  intros [= -> ->]. unfold get_error. split.
  - intros ->. simpl. done.
  - intros message Hne ->. simpl. split; [done|].
    rewrite bool_decide_eq_false_2; [done|]. by intros [= ->].
Qed.

Lemma empty_error_is_invalid_and_hidden_witness :
  (isInvalid
     (MappedInputFormField
        (ProxyField {| formValue := object 0 []; touchedFields := [];
                       errors := {["name" := Some ""]} |} "name") id id) = true
   ∧ isValid
       (MappedInputFormField
          (ProxyField {| formValue := object 0 []; touchedFields := [];
                         errors := {["name" := Some ""]} |} "name") id id) = false
   ∧ getErrorMessage
       (MappedInputFormField
          (ProxyField {| formValue := object 0 []; touchedFields := [];
                         errors := {["name" := Some ""]} |} "name") id id) = None).
Proof.
  apply (empty_error_is_invalid_and_hidden
           (MappedInputFormField
              (ProxyField {| formValue := object 0 []; touchedFields := [];
                             errors := {["name" := Some ""]} |} "name") id id)
           {| formValue := object 0 []; touchedFields := [];
              errors := {["name" := Some ""]} |} "name").
  - reflexivity.
  - reflexivity.
Defined.

(* ===================================================================== *)
(** ** Accessors and the state behind them *)
(* ===================================================================== *)

Lemma run_setValue_proxy (st : HookState) (this : HandlerArgs) (name : string)
    (fieldValue : JsValue) :
  st_value (run st (setValue (ProxyField this name) fieldValue))
  = setValue_update name fieldValue (st_fresh st) (st_value st)
  ∧ st_touchedFields (run st (setValue (ProxyField this name) fieldValue))
    = if includes (touchedFields this) name then st_touchedFields st
      else touchedFields this ++ [name].
Proof. simpl. by destruct (includes (touchedFields this) name). Qed.

(** After [setValue], the state holds the new value under the field's name,
    or the strictly equal value it held before. *)
Lemma setValue_update_field (name : string) (fieldValue : JsValue) (fresh : N)
    (prevState : FormValue) :
  get_field (setValue_update name fieldValue fresh prevState) name
  = if strict_equals (get_field prevState name) fieldValue
    then get_field prevState name else fieldValue.
Proof.
  unfold setValue_update. destruct (strict_equals _ _); [done|].
  unfold get_field. simpl. by rewrite lookup_insert_eq.
Qed.

(** With another value, [setValue] puts a new object in place of the old. *)
Lemma setValue_other_value (st : HookState) (this : HandlerArgs) (name : string)
    (fieldValue : JsValue) :
  strict_equals (get_field (st_value st) name) fieldValue = false →
  st_value (run st (setValue (ProxyField this name) fieldValue))
  = {| obj_id := st_fresh st;
       obj_props := <[name := fieldValue]> (obj_props (st_value st)) |}.
Proof.
  intros Hother. rewrite (proj1 (run_setValue_proxy _ _ _ _)).
  unfold setValue_update. by rewrite Hother.
Qed.

Lemma setValue_mapped (delegate : InputFormField) (mapper inverseMapper : JsValue → JsValue)
    (fieldValue : JsValue) :
  setValue (MappedInputFormField delegate mapper inverseMapper) fieldValue
  = setValue delegate (inverseMapper fieldValue).
Proof. reflexivity. Qed.

(** C1 (amended). [setValue] called on an accessor of the projection with a
    value strictly equal to the field's current one leaves the form value
    object in place (the update function returns the object it was given),
    and it marks the field as touched all the same: the field's name is added
    at the end of the touched sequence unless the sequence has it already. *)
Theorem setValue_same_value (st : HookState) (errors : ErrorMap)
    (this : InputFormFieldsHandler) (name : string) (field : InputFormField)
    (fieldValue : JsValue) :
  handler_reaches (hook_fields st errors) this →
  (get this (KeyString name)).1 = Some field →
  strict_equals (get_field (st_value st) name) fieldValue = true →
  st_value (run st (setValue field fieldValue)) = st_value st
  ∧ st_touchedFields (run st (setValue field fieldValue))
    = if bool_decide (name ∈ st_touchedFields st) then st_touchedFields st
      else st_touchedFields st ++ [name].
Proof.
  intros Hreach Hget Hsame.
  rewrite (projection_accessor _ _ _ _ _ _ Hreach Hget).
  destruct (run_setValue_proxy st
              {| formValue := st_value st; touchedFields := st_touchedFields st;
                 errors := errors |} name fieldValue) as [-> ->].
  split; [|done]. unfold setValue_update. by rewrite Hsame.
Qed.

Lemma setValue_same_value_witness :
  st_value
    (run {| st_value := object 0 [("name", JString (js "a"))];
            st_touchedFields := ["mail"]; st_fresh := 1 |}
       (setValue
          (ProxyField {| formValue := object 0 [("name", JString (js "a"))];
                         touchedFields := ["mail"]; errors := ∅ |} "name")
          (JString (js "a"))))
  = object 0 [("name", JString (js "a"))]
  ∧ st_touchedFields
      (run {| st_value := object 0 [("name", JString (js "a"))];
              st_touchedFields := ["mail"]; st_fresh := 1 |}
         (setValue
            (ProxyField {| formValue := object 0 [("name", JString (js "a"))];
                           touchedFields := ["mail"]; errors := ∅ |} "name")
            (JString (js "a"))))
    = ["mail"; "name"].
Proof.
  apply (setValue_same_value
           {| st_value := object 0 [("name", JString (js "a"))];
              st_touchedFields := ["mail"]; st_fresh := 1 |} ∅
           (hook_fields {| st_value := object 0 [("name", JString (js "a"))];
                           st_touchedFields := ["mail"]; st_fresh := 1 |} ∅)
           "name" _ (JString (js "a"))).
  - apply reaches_here.
  - reflexivity.
  - reflexivity.
Defined.

(** C1 as stated fails: on an untouched field, [setValue] with the value the
    field already has changes the touched sequence. *)
Lemma setValue_same_value_touches :
  ¬ (∀ (st : HookState) (errors : ErrorMap) (name : string) (field : InputFormField)
       (fieldValue : JsValue),
       (get (hook_fields st errors) (KeyString name)).1 = Some field →
       strict_equals (get_field (st_value st) name) fieldValue = true →
       st_touchedFields (run st (setValue field fieldValue)) = st_touchedFields st
       ∧ st_value (run st (setValue field fieldValue)) = st_value st).
Proof.
  intros H.
  destruct (H {| st_value := object 0 [("name", JString (js "a"))];
                 st_touchedFields := []; st_fresh := 1 |}
              ∅ "name" _ (JString (js "a")) eq_refl eq_refl) as [Htouched _].
  discriminate Htouched.
Qed.

(** C9 (amended). After [setValue(x)] through the adapter [map(f, g)] of a
    field, the adapter [map(f, g)] of the same field in the projection built
    from the updated state reads [f(g(x))], provided [g(x)] is not a promise
    and, in case the field already held a value strictly equal to [g(x)]
    (the state is then left as it is), that value is [g(x)].  So with
    [x = f(v)] it reads [f(g(f(v)))], and it reads [x] when [f(g(x)) = x]. *)
Theorem map_round_trip_after_update (st : HookState) (errors errors' : ErrorMap)
    (name : string) (f g : JsValue → JsValue) (x : JsValue)
    (this this' : InputFormFieldsHandler) (field adapter field' adapter' : InputFormField) :
  handler_reaches (hook_fields st errors) this →
  (get this (KeyString name)).1 = Some field →
  map_field (get this (KeyString name)).2 field f g = Normal adapter →
  handler_reaches (hook_fields (run st (setValue adapter x)) errors') this' →
  (get this' (KeyString name)).1 = Some field' →
  map_field (get this' (KeyString name)).2 field' f g = Normal adapter' →
  isPromise (g x) = false →
  (strict_equals (get_field (st_value st) name) (g x) = true →
   get_field (st_value st) name = g x) →
  getValue adapter' = Value (f (g x))
  ∧ (f (g x) = x → getValue adapter' = Value x).
Proof.
  intros Hreach Hget Hmap Hreach' Hget' Hmap' Hpromise Hsame.
  destruct (map_field_cached _ _ _ _ _ name field f g Hreach Hget (reaches_here _))
    as [_ Hadapter].
  rewrite Hadapter in Hmap. injection Hmap as <-.
  destruct (map_field_cached _ _ _ _ _ name field' f g Hreach' Hget' (reaches_here _))
    as [_ Hadapter'].
  rewrite Hadapter' in Hmap'. injection Hmap' as <-.
  rewrite (projection_accessor _ _ _ _ _ _ Hreach' Hget').
  rewrite (projection_accessor _ _ _ _ _ _ Hreach Hget).
  assert (Hfield : get_field
                     (st_value
                        (run st
                           (setValue
                              (MappedInputFormField
                                 (ProxyField
                                    {| formValue := st_value st;
                                       touchedFields := st_touchedFields st;
                                       errors := errors |} name) f g) x))) name
                   = g x).
  { rewrite setValue_mapped.
    rewrite (proj1 (run_setValue_proxy _ _ _ _)), setValue_update_field.
    destruct (strict_equals _ _) eqn:Heq; [by apply Hsame|done]. }
  assert (Hread : getValue
                    (MappedInputFormField
                       (ProxyField
                          {| formValue :=
                               st_value
                                 (run st
                                    (setValue
                                       (MappedInputFormField
                                          (ProxyField
                                             {| formValue := st_value st;
                                                touchedFields := st_touchedFields st;
                                                errors := errors |} name) f g) x));
                             touchedFields :=
                               st_touchedFields
                                 (run st
                                    (setValue
                                       (MappedInputFormField
                                          (ProxyField
                                             {| formValue := st_value st;
                                                touchedFields := st_touchedFields st;
                                                errors := errors |} name) f g) x));
                             errors := errors' |} name) f g)
                  = Value (f (g x))).
  { cbn [getValue formValue got_isPromise]. rewrite Hfield, Hpromise. done. }
  split; [exact Hread|]. intros Hfg. by rewrite Hread, Hfg.
Qed.

Lemma map_round_trip_after_update_witness :
  getValue
    (MappedInputFormField
       (ProxyField
          {| formValue := object 1 [("name", JString (js "b"))];
             touchedFields := ["name"]; errors := ∅ |} "name")
       (fun v => match v with JString s => JString (s ++ js "!") | other => other end)
       (fun v => match v with JString s => JString (removelast s) | other => other end))
  = Value (JString (js "b!")).
Proof.
  apply (map_round_trip_after_update
           {| st_value := object 0 [("name", JString (js "a"))];
              st_touchedFields := []; st_fresh := 1 |} ∅ ∅ "name"
           (fun v => match v with JString s => JString (s ++ js "!") | other => other end)
           (fun v => match v with JString s => JString (removelast s) | other => other end)
           (JString (js "b!"))
           (hook_fields {| st_value := object 0 [("name", JString (js "a"))];
                           st_touchedFields := []; st_fresh := 1 |} ∅)
           (hook_fields {| st_value := object 1 [("name", JString (js "b"))];
                           st_touchedFields := ["name"]; st_fresh := 2 |} ∅)
           (ProxyField
              {| formValue := object 0 [("name", JString (js "a"))];
                 touchedFields := []; errors := ∅ |} "name")
           (MappedInputFormField
              (ProxyField
                 {| formValue := object 0 [("name", JString (js "a"))];
                    touchedFields := []; errors := ∅ |} "name")
              (fun v => match v with JString s => JString (s ++ js "!") | other => other end)
              (fun v => match v with JString s => JString (removelast s) | other => other end))
           (ProxyField
              {| formValue := object 1 [("name", JString (js "b"))];
                 touchedFields := ["name"]; errors := ∅ |} "name")).
  - apply reaches_here.
  - reflexivity.
  - reflexivity.
  - apply reaches_here.
  - reflexivity.
  - reflexivity.
  - reflexivity.
  - intros H. discriminate H.
  - reflexivity.
Defined.

(** C9 as stated fails: an adapter reads the form value its projection was
    created with, so after [setValue] the same adapter still returns the image
    of the old value, also for a pair of functions inverse to each other. *)
Lemma adapter_reads_its_snapshot :
  ¬ (∀ (st : HookState) (errors : ErrorMap) (name : string) (f g : JsValue → JsValue)
       (v : JsValue) (field adapter : InputFormField),
       (get (hook_fields st errors) (KeyString name)).1 = Some field →
       map_field (get (hook_fields st errors) (KeyString name)).2 field f g
       = Normal adapter →
       isPromise v = false →
       get_field (st_value (run st (setValue adapter (f v)))) name = g (f v) →
       getValue adapter = Value (f (g (f v))))
  ∧ ¬ (∀ (st : HookState) (errors : ErrorMap) (name : string) (f g : JsValue → JsValue)
         (x : JsValue) (field adapter : InputFormField),
         (∀ y, f (g y) = y) → (∀ y, g (f y) = y) →
         (get (hook_fields st errors) (KeyString name)).1 = Some field →
         map_field (get (hook_fields st errors) (KeyString name)).2 field f g
         = Normal adapter →
         isPromise x = false →
         get_field (st_value (run st (setValue adapter x))) name = g x →
         getValue adapter = Value x).
Proof.
  split.
  - intros H.
    specialize (H {| st_value := object 0 [("name", JString (js "a"))];
                     st_touchedFields := []; st_fresh := 1 |}
                  ∅ "name" id (fun _ => JString (js "z")) (JString (js "a")) _ _
                  eq_refl eq_refl eq_refl eq_refl).
    discriminate H.
  - intros H.
    specialize (H {| st_value := object 0 [("name", JString (js "a"))];
                     st_touchedFields := []; st_fresh := 1 |}
                  ∅ "name" id id (JString (js "b")) _ _
                  (fun y => eq_refl) (fun y => eq_refl)
                  eq_refl eq_refl eq_refl eq_refl).
    discriminate H.
Qed.

(* ===================================================================== *)
(** ** The valid value *)
(* ===================================================================== *)

Lemma find_error_iff (errors : ErrorMap) :
  find (fun field => bool_decide (get_error errors field ≠ None)) (keysOf errors) ≠ None
  ↔ ∃ field message, errors !! field = Some (Some message).
Proof.
  split.
  - intros H.
    destruct (find _ _) as [field|] eqn:Hfind; [|done].
    apply find_some in Hfind as [_ Hfield]. apply bool_decide_eq_true in Hfield.
    exists field. unfold get_error in Hfield.
    destruct (errors !! field) as [[message|]|]; simpl in Hfield; [eauto|done..].
  - intros (field & message & Hfield) Hnone.
    rewrite find_none_iff in Hnone. specialize (Hnone field).
    rewrite bool_decide_eq_false in Hnone. apply Hnone.
    + apply elem_of_keysOf. eauto.
    + unfold get_error. by rewrite Hfield.
Qed.

(** C7. [getValidValue] throws exactly when the error map has an entry that
    is not [undefined], which is exactly when [invalid] is true; otherwise it
    returns the current form value, the very object. *)
Theorem getValidValue_throws_iff_invalid (errors : ErrorMap) (value : FormValue) :
  getValidValue errors value
  = (if invalid errors then Throw (Error "Input form is not valid.") else Normal value)
  ∧ (invalid errors = true ↔ ∃ field message, errors !! field = Some (Some message))
  ∧ (throws (getValidValue errors value)
     ↔ ∃ field message, errors !! field = Some (Some message))
  ∧ (getValidValue errors value = Normal value
     ↔ ¬ ∃ field message, errors !! field = Some (Some message)).
Proof.
  assert (Hinvalid : invalid errors = true
                     ↔ ∃ field message, errors !! field = Some (Some message)).
  { unfold invalid. by rewrite bool_decide_eq_true, find_error_iff. }
  assert (Heq : getValidValue errors value
                = if invalid errors then Throw (Error "Input form is not valid.")
                  else Normal value).
  { unfold getValidValue, invalid.
    destruct (find _ _) as [field|]; by repeat case_bool_decide. }
  split_and!; [done..| |].
  - rewrite <- Hinvalid, Heq. destruct (invalid errors); split; try done.
    + intros _. by eexists.
    + by intros [e [=]].
  - rewrite <- Hinvalid, Heq. by destruct (invalid errors).
Qed.

(* ===================================================================== *)
(** ** Further properties of the validator chain *)
(* ===================================================================== *)

(** A conditional node whose condition holds returns the parent's entries
    and, for the fields the parent has none for, the sub-chain's. *)
Lemma getFieldErrors_conditional_lookup (predicate : FormValue → Completion bool)
    (cv parent : InputFormValidator) (value : FormValue) (errs0 cerrs : ErrorMap) :
  getFieldErrors parent value = Normal errs0 → predicate value = Normal true →
  getFieldErrors cv value = Normal cerrs →
  ∃ errs,
    getFieldErrors (ConditionalInputFormValidator predicate cv parent) value = Normal errs
    ∧ ∀ k, errs !! k = match errs0 !! k with
                       | Some o => Some o
                       | None => cerrs !! k
                       end.
Proof.
  intros Hp Hpred Hc.
  destruct (find (fun field => negb (includes (keysOf errs0) field))
              (getValidatedFields cv)) as [missing|] eqn:Hfind.
  - apply find_some in Hfind as [Hin Hmissing].
    apply negb_true_iff, includes_false, not_elem_of_keysOf in Hmissing.
    apply (getFieldErrors_condition_true predicate cv parent value errs0 cerrs missing);
      try done.
    by apply list_elem_of_In.
  - exists errs0. split.
    + simpl. rewrite Hp. simpl. by rewrite Hfind.
    + intros k. destruct (errs0 !! k) as [o|] eqn:Hk; [done|].
      symmetry. apply eq_None_not_Some. intros Hsome.
      pose proof (getFieldErrors_keys _ _ _ _ Hc Hsome) as Hval.
      rewrite find_none_iff in Hfind. specialize (Hfind k Hval).
      apply negb_false_iff, includes_true, elem_of_keysOf in Hfind.
      rewrite Hk in Hfind. by destruct Hfind.
Qed.

(** The verdict on a field and its entry in the error map go together. *)
Lemma verdict_and_entry (this : InputFormValidator) (field : string) (value : FormValue) :
  callbacks_return this value →
  ∃ valid errs,
    isFieldValid this field value = Normal valid
    ∧ getFieldErrors this value = Normal errs
    ∧ (valid = false ↔ is_Some (errs !! field)).
Proof.
  induction this as [|g r parent IH|predicate cv IHcv parent IH]; simpl.
  - intros _. exists true, ∅. split_and!; [done..|].
    rewrite lookup_empty. split; [done|]. by intros [? ?].
  - intros [(pv & e0 & Hv & He & Hiff)%IH [ok Hok]].
    rewrite Hv, He. simpl. destruct pv; simpl.
    + assert (Hnone : e0 !! field = None).
      { apply eq_None_not_Some. intros H%Hiff. done. }
      case_bool_decide as Hg; simpl.
      * subst g. rewrite (proj2 (includes_false _ _))
          by (by apply not_elem_of_keysOf).
        rewrite Hok. simpl. exists ok. destruct ok; simpl.
        -- exists e0. split_and!; [done..|]. rewrite Hnone. split; [done|]. by intros [? ?].
        -- eexists. split_and!; [done..|]. rewrite lookup_insert_eq. split; eauto.
      * exists true. destruct (includes (keysOf e0) g); simpl.
        -- exists e0. split_and!; [done..|]. rewrite Hnone. split; [done|]. by intros [? ?].
        -- rewrite Hok. simpl. destruct ok; simpl; eexists; (split_and!; [done..|]).
           ++ rewrite Hnone. split; [done|]. by intros [? ?].
           ++ rewrite lookup_insert_ne, Hnone by done. split; [done|]. by intros [? ?].
    + assert (Hsome : is_Some (e0 !! field)) by by apply Hiff.
      exists false. destruct (includes (keysOf e0) g) eqn:Hg; simpl.
      * exists e0. by split_and!.
      * rewrite Hok. simpl. destruct ok; simpl; eexists; (split_and!; [done..|]).
        -- done.
        -- split; [intros _|done]. rewrite lookup_insert_ne; [done|].
           intros ->. apply includes_false, not_elem_of_keysOf in Hg.
           rewrite Hg in Hsome. by destruct Hsome.
  - intros ((pv & e0 & Hv & He & Hiff)%IH & [holds Hholds]
            & (cvalid & ce & Hcv & Hce & Hciff)%IHcv).
    rewrite Hv. simpl. destruct holds.
    + destruct (getFieldErrors_conditional_lookup predicate cv parent value e0 ce
                  He Hholds Hce) as (errs & Herrs & Hlookup).
      simpl in Herrs. rewrite Herrs. destruct pv; simpl.
      * rewrite Hholds. simpl. rewrite Hcv. exists cvalid, errs. split_and!; [done..|].
        rewrite Hlookup.
        assert (e0 !! field = None) as ->; [|done].
        apply eq_None_not_Some. intros H%Hiff. done.
      * exists false, errs. split_and!; [done..|]. split; [intros _|done].
        rewrite Hlookup. destruct (proj1 Hiff eq_refl) as [o ->]. eauto.
    + rewrite He. simpl. destruct (find _ _); rewrite ?Hholds; simpl.
      all: destruct pv; simpl; rewrite ?Hholds; simpl.
      all: eexists _, e0; (split_and!; [done..|]); by rewrite <- Hiff.
Qed.

(** X1. For a chain built from the library's own rules, with no callback
    and no [RegExp] object from the caller, and on every form value: a field
    is invalid for [isFieldValid] exactly when [getFieldErrors] has an entry
    for it, and the entry is then a message. *)
Theorem invalid_iff_error_entry (URL_new : JsString → Completion URL)
    (calls : list BuilderCall) (chain : InputFormValidator) (field : string)
    (value : FormValue) :
  Forall (fun c => stateless c = true) calls →
  build URL_new calls NoopInputFormValidator = Normal chain →
  ∃ valid errs,
    isFieldValid chain field value = Normal valid
    ∧ getFieldErrors chain value = Normal errs
    ∧ (valid = false ↔ ∃ message, errs !! field = Some (Some message))
    ∧ (valid = true ↔ errs !! field = None).
Proof.
  intros Hcalls Hbuild.
  assert (Hcb : callbacks_return chain value).
  { eapply build_callbacks_return; [|exact Hbuild|exact I].
    eapply Forall_impl; [exact Hcalls|]. by intros c [? _]%andb_true_iff. }
  destruct (verdict_and_entry chain field value Hcb) as (valid & errs & Hv & He & Hiff).
  exists valid, errs. split_and!; [done..| |].
  - rewrite Hiff. split.
    + intros [o Ho]. destruct (getFieldErrors_entries _ _ _ _ _ He Ho) as [m ->]. eauto.
    + intros [m Hm]. eauto.
  - rewrite eq_None_not_Some, <- Hiff. by destruct valid.
Qed.

Lemma invalid_iff_error_entry_witness :
  ∃ valid errs,
    isFieldValid (notBlank "name" "N" NoopInputFormValidator) "name"
      (object 0 [("name", JString (js " "))]) = Normal valid
    ∧ getFieldErrors (notBlank "name" "N" NoopInputFormValidator)
        (object 0 [("name", JString (js " "))]) = Normal errs
    ∧ (valid = false ↔ ∃ message, errs !! "name" = Some (Some message))
    ∧ (valid = true ↔ errs !! "name" = None).
Proof.
  apply (invalid_iff_error_entry (fun _ => Throw (TypeError "Invalid URL"))
           [CallNotBlank "name" "N"] (notBlank "name" "N" NoopInputFormValidator)
           "name" (object 0 [("name", JString (js " "))])).
  - repeat constructor.
  - reflexivity.
Defined.

Lemma getValidValue_returns_iff (errors : ErrorMap) (value : FormValue) :
  getValidValue errors value = Normal value
  ↔ ¬ ∃ field message, errors !! field = Some (Some message).
Proof.
  rewrite <- find_error_iff. unfold getValidValue. case_bool_decide as H.
  - split; [|done]. intros _ Hne. by apply Hne.
  - split; [done|]. intros Hnn. by destruct Hnn.
Qed.

(** X2. For a chain built from the library's own rules, with no callback
    and no [RegExp] object from the caller, and the error map the hook
    computes from it: [getValidValue] returns the form value exactly when
    [isFieldValid] holds for every field, and [invalid] is true exactly when
    it fails for one. *)
Theorem getValidValue_iff_all_fields_valid (URL_new : JsString → Completion URL)
    (calls : list BuilderCall) (chain : InputFormValidator) (value : FormValue) :
  Forall (fun c => stateless c = true) calls →
  build URL_new calls NoopInputFormValidator = Normal chain →
  ∃ errs,
    getFieldErrors chain value = Normal errs
    ∧ (getValidValue errs value = Normal value
       ↔ ∀ field, isFieldValid chain field value = Normal true)
    ∧ (invalid errs = true ↔ ∃ field, isFieldValid chain field value = Normal false).
Proof.
  intros Hcalls Hbuild.
  assert (Hcb : callbacks_return chain value).
  { eapply build_callbacks_return; [|exact Hbuild|exact I].
    eapply Forall_impl; [exact Hcalls|]. by intros c [? _]%andb_true_iff. }
  destruct (getFieldErrors_returns _ _ Hcb) as [errs Herrs].
  exists errs. split; [done|].
  assert (Hfield : ∀ field,
             ∃ valid, isFieldValid chain field value = Normal valid
                      ∧ (valid = false ↔ ∃ message, errs !! field = Some (Some message))).
  { intros field.
    destruct (verdict_and_entry chain field value Hcb) as (valid & errs' & Hv & He & Hiff).
    rewrite Herrs in He. injection He as <-. exists valid. split; [done|].
    rewrite Hiff. split.
    - intros [o Ho]. destruct (getFieldErrors_entries _ _ _ _ _ Herrs Ho) as [m ->]. eauto.
    - intros [m Hm]. eauto. }
  split.
  - rewrite getValidValue_returns_iff. split.
    + intros Hnone field. destruct (Hfield field) as (valid & -> & Hiff).
      destruct valid; [done|]. destruct Hnone. exists field. by apply Hiff.
    + intros Hall (field & message & Hentry).
      destruct (Hfield field) as (valid & Hv & Hiff).
      rewrite Hall in Hv. injection Hv as <-.
      assert (true = false) by (apply Hiff; eauto). done.
  - unfold invalid. rewrite bool_decide_eq_true, find_error_iff. split.
    + intros (field & message & Hentry). exists field.
      destruct (Hfield field) as (valid & -> & Hiff). f_equal. apply Hiff. eauto.
    + intros [field Hinvalid]. exists field.
      destruct (Hfield field) as (valid & Hv & Hiff).
      rewrite Hinvalid in Hv. injection Hv as <-. by apply Hiff.
Qed.

Lemma getValidValue_iff_all_fields_valid_witness :
  ∃ errs,
    getFieldErrors (notBlank "name" "N" NoopInputFormValidator)
      (object 0 [("name", JString (js "Bob"))]) = Normal errs
    ∧ (getValidValue errs (object 0 [("name", JString (js "Bob"))])
       = Normal (object 0 [("name", JString (js "Bob"))])
       ↔ ∀ field,
           isFieldValid (notBlank "name" "N" NoopInputFormValidator) field
             (object 0 [("name", JString (js "Bob"))]) = Normal true)
    ∧ (invalid errs = true
       ↔ ∃ field,
           isFieldValid (notBlank "name" "N" NoopInputFormValidator) field
             (object 0 [("name", JString (js "Bob"))]) = Normal false).
Proof.
  apply (getValidValue_iff_all_fields_valid (fun _ => Throw (TypeError "Invalid URL"))
           [CallNotBlank "name" "N"] (notBlank "name" "N" NoopInputFormValidator)
           (object 0 [("name", JString (js "Bob"))])).
  - repeat constructor.
  - reflexivity.
Defined.

(** X3. A field that no rule of the chain targets is valid and has no entry
    in the error map, on every form value on which the callbacks return. *)
Theorem unvalidated_field_is_valid (this : InputFormValidator) (field : string)
    (value : FormValue) :
  field ∉ getValidatedFields this → callbacks_return this value →
  isFieldValid this field value = Normal true
  ∧ ∃ errs, getFieldErrors this value = Normal errs ∧ errs !! field = None.
Proof.
  intros Hfresh Hcb.
  destruct (verdict_and_entry this field value Hcb) as (valid & errs & Hv & He & Hiff).
  pose proof (getFieldErrors_not_validated _ _ _ _ Hfresh He) as Hnone.
  split; [|eauto]. rewrite Hv. f_equal. destruct valid; [done|].
  destruct (proj1 Hiff eq_refl) as [o Ho]. congruence.
Qed.

Lemma unvalidated_field_is_valid_witness :
  isFieldValid (notBlank "name" "N" NoopInputFormValidator) "mail"
    (object 0 [("name", JString (js ""))]) = Normal true
  ∧ ∃ errs,
      getFieldErrors (notBlank "name" "N" NoopInputFormValidator)
        (object 0 [("name", JString (js ""))]) = Normal errs
      ∧ errs !! "mail" = None.
Proof.
  apply (unvalidated_field_is_valid (notBlank "name" "N" NoopInputFormValidator)
           "mail" (object 0 [("name", JString (js ""))])).
  - rewrite list_elem_of_In. vm_compute. intros [H|[]]. discriminate H.
  - simpl. split; [exact I|]. eexists. reflexivity.
Defined.

Lemma prefix_push_absent (l : list string) (f : string) : l `prefix_of` push_absent l f.
Proof.
  unfold push_absent. destruct (includes l f); [done|]. by apply prefix_app_r.
Qed.

Lemma prefix_foldl_push_absent (more l : list string) :
  l `prefix_of` foldl push_absent l more.
Proof.
  revert l. induction more as [|f more IH]; intros l; simpl; [done|].
  etrans; [apply (prefix_push_absent l f)|apply IH].
Qed.

(** X4. Appending to a chain, rules or conditional sub-chains, only appends to
    its validated fields: the fields of the chain it extends stay at the head
    in their order, there are no duplicates, and a conditional node lists
    exactly the fields of its parent and of its sub-chain. *)
Theorem validated_fields_only_grow (base later : InputFormValidator) :
  extends base later →
  getValidatedFields base `prefix_of` getValidatedFields later
  ∧ NoDup (getValidatedFields later)
  ∧ ∀ predicate conditionalValidator field,
      field ∈ getValidatedFields
                (ConditionalInputFormValidator predicate conditionalValidator later)
      ↔ field ∈ getValidatedFields later
        ∨ field ∈ getValidatedFields conditionalValidator.
Proof.
  intros Hext. split_and!.
  - induction Hext as [|f r parent Hext IH|predicate cv parent Hext IH]; [done| |].
    + etrans; [exact IH|]. apply (prefix_push_absent _ f).
    + etrans; [exact IH|]. simpl. apply prefix_foldl_push_absent.
  - apply NoDup_getValidatedFields.
  - intros predicate cv field. simpl. apply elem_of_foldl_push_absent.
Qed.

Lemma validated_fields_only_grow_witness :
  ["name"] `prefix_of`
    getValidatedFields
      (ConditionalInputFormValidator (fun _ => mret true)
         (notBlank "mail" "M" (notBlank "name" "N2" NoopInputFormValidator))
         (notBlank "name" "N" NoopInputFormValidator)).
Proof.
  apply (validated_fields_only_grow (notBlank "name" "N" NoopInputFormValidator)).
  apply extends_conditional, extends_refl.
Defined.

(** X5. A conditional node on top of an evaluated parent: when its condition
    is false it returns the parent's error map and does not evaluate the
    sub-chain; when the condition holds it returns the parent's map completed
    by the sub-chain's entries, the parent's entry winning where both have
    one. *)
Theorem conditional_errors (predicate : FormValue → Completion bool)
    (cv parent : InputFormValidator) (value : FormValue) (errs0 : ErrorMap) :
  getFieldErrors parent value = Normal errs0 →
  (predicate value = Normal false →
   getFieldErrors (ConditionalInputFormValidator predicate cv parent) value
   = Normal errs0)
  ∧ (∀ cerrs,
       predicate value = Normal true → getFieldErrors cv value = Normal cerrs →
       getFieldErrors (ConditionalInputFormValidator predicate cv parent) value
       = Normal (errs0 ∪ cerrs)).
Proof.
  intros Hp. split.
  - intros Hpred. by apply getFieldErrors_condition_false.
  - intros cerrs Hpred Hc.
    destruct (getFieldErrors_conditional_lookup predicate cv parent value errs0 cerrs
                Hp Hpred Hc) as (errs & -> & Hlookup).
    f_equal. apply map_eq. intros k. rewrite Hlookup, lookup_union.
    by destruct (errs0 !! k), (cerrs !! k).
Qed.

Lemma conditional_errors_witness :
  getFieldErrors
    (ConditionalInputFormValidator (fun _ => mret true)
       (notBlank "mail" "M" (notBlank "name" "N2" NoopInputFormValidator))
       (notBlank "name" "N" NoopInputFormValidator))
    (object 0 [("name", JString (js "")); ("mail", JString (js ""))])
  = Normal ({["name" := Some "N"]} ∪ {["name" := Some "N2"; "mail" := Some "M"]}).
Proof.
  apply (conditional_errors (fun _ => mret true)
           (notBlank "mail" "M" (notBlank "name" "N2" NoopInputFormValidator))
           (notBlank "name" "N" NoopInputFormValidator)
           (object 0 [("name", JString (js "")); ("mail", JString (js ""))])
           {["name" := Some "N"]}); reflexivity.
Defined.

(** Every builder call but [when] puts one field rule on top of the chain. *)
Lemma call_appends_rule (URL_new : JsString → Completion URL) (c : BuilderCall)
    (field : string) (this chain : InputFormValidator) :
  call_field c = Some field → call URL_new c this = Normal chain →
  ∃ rule, chain = ChildInputFormValidator field rule this.
Proof.
  intros Hfield Hcall.
  destruct c; simpl in *; try discriminate; injection Hfield as <-.
  all: try (injection Hcall as <-; eexists; reflexivity).
  unfold pattern in Hcall. inv_bind Hcall. injection Hcall as <-.
  eexists; reflexivity.
Qed.

(** X6. A builder call that targets one field changes nothing for the other
    fields: [isFieldValid] on another field is that of the chain below, and
    when [getFieldErrors] returns on both chains the entry of another field
    is the same in both. *)
Theorem rule_leaves_other_fields (URL_new : JsString → Completion URL) (c : BuilderCall)
    (target field : string) (this chain : InputFormValidator) (value : FormValue) :
  call_field c = Some target → target ≠ field →
  call URL_new c this = Normal chain →
  isFieldValid chain field value = isFieldValid this field value
  ∧ ∀ errs0 errs,
      getFieldErrors this value = Normal errs0 →
      getFieldErrors chain value = Normal errs →
      errs !! field = errs0 !! field.
Proof.
  intros Hfield Hne Hcall.
  destruct (call_appends_rule _ _ _ _ _ Hfield Hcall) as [rule ->]. split.
  - simpl. destruct (isFieldValid this field value) as [pv|e]; simpl; [|done].
    destruct pv; simpl; [|done]. by rewrite bool_decide_eq_false_2.
  - intros errs0 errs H0 H. simpl in H. rewrite H0 in H. simpl in H.
    destruct (includes _ _); [by injection H as <-|].
    inv_bind H. destruct a; simpl in H; injection H as <-; [done|].
    by rewrite lookup_insert_ne.
Qed.

Lemma rule_leaves_other_fields_witness :
  isFieldValid (minLength "name" "Too short" (num_of_nat 3)
                  (notBlank "mail" "M" NoopInputFormValidator))
    "mail" (object 0 [("name", JString (js "ab")); ("mail", JString (js ""))])
  = isFieldValid (notBlank "mail" "M" NoopInputFormValidator)
      "mail" (object 0 [("name", JString (js "ab")); ("mail", JString (js ""))]).
Proof.
  apply (rule_leaves_other_fields (fun _ => Throw (TypeError "Invalid URL"))
           (CallMinLength "name" "Too short" (num_of_nat 3)) "name" "mail"
           (notBlank "mail" "M" NoopInputFormValidator)).
  - reflexivity.
  - discriminate.
  - reflexivity.
Defined.

(** X7. A field that is invalid for a chain stays invalid for every chain
    that extends it: [isFieldValid] answers false without consulting any of
    the rules or conditions appended later, so also when these would throw. *)
Theorem invalid_field_stays_invalid (base later : InputFormValidator) (field : string)
    (value : FormValue) :
  extends base later →
  isFieldValid base field value = Normal false →
  isFieldValid later field value = Normal false.
Proof.
  intros Hext Hbase.
  induction Hext as [|f r parent Hext IH|predicate cv parent Hext IH];
    [done|simpl; by rewrite IH..].
Qed.

Lemma invalid_field_stays_invalid_witness :
  isFieldValid
    (require "name" "never" (fun _ _ => Throw (Error "callback failed"))
       (notBlank "name" "N" NoopInputFormValidator))
    "name" (object 0 [("name", JString (js ""))]) = Normal false.
Proof.
  apply (invalid_field_stays_invalid (notBlank "name" "N" NoopInputFormValidator)).
  - apply extends_child, extends_refl.
  - reflexivity.
Defined.

(** X8. Every message in the error map is the message of a rule of the chain
    (possibly inside a conditional sub-chain) that targets this field and
    fails on the form value. *)
Theorem error_message_comes_from_failing_rule (this : InputFormValidator)
    (value : FormValue) (errs : ErrorMap) (field message : string) :
  getFieldErrors this value = Normal errs →
  errs !! field = Some (Some message) →
  ∃ rule, rule_in field rule this
          ∧ error rule = message
          ∧ validate rule (get_field value field) value = Normal false.
Proof.
  revert errs.
  induction this as [|g r parent IH|predicate cv IHcv parent IH]; intros errs H Hentry.
  - simpl in H. injection H as <-. by rewrite lookup_empty in Hentry.
  - simpl in H. inv_bind H.
    assert (Hparent : a !! field = Some (Some message) →
                      ∃ rule, rule_in field rule (ChildInputFormValidator g r parent)
                              ∧ error rule = message
                              ∧ validate rule (get_field value field) value = Normal false).
    { intros (rule & Hin & Herr & Hfail)%(IH a Ha). exists rule. split_and!; [|done..].
      by constructor. }
    destruct (includes (keysOf a) g) eqn:Hg.
    { injection H as <-. auto. }
    inv_bind H. destruct a0 eqn:Hvalid; simpl in H; injection H as <-; [auto|].
    destruct (decide (g = field)) as [->|Hne].
    + rewrite lookup_insert_eq in Hentry. injection Hentry as <-.
      exists r. split_and!; [constructor|done..].
    + rewrite lookup_insert_ne in Hentry by done. auto.
  - simpl in H. inv_bind H.
    assert (Hparent : a !! field = Some (Some message) →
                      ∃ rule,
                        rule_in field rule (ConditionalInputFormValidator predicate cv parent)
                        ∧ error rule = message
                        ∧ validate rule (get_field value field) value = Normal false).
    { intros (rule & Hin & Herr & Hfail)%(IH a Ha). exists rule. split_and!; [|done..].
      by apply rule_in_parent. }
    destruct (find _ _) as [missing|].
    2: { injection H as <-. auto. }
    inv_bind H. destruct a0; simpl in H.
    2: { injection H as <-. auto. }
    inv_bind H. injection H as <-.
    rewrite copy_errors_lookup in Hentry. case_decide as Hin; [|auto].
    apply list_elem_of_filter in Hin as [_ [o Ho]%elem_of_keysOf].
    injection Hentry as Hget. unfold get_error in Hget. rewrite Ho in Hget.
    simpl in Hget. subst o.
    destruct (IHcv _ Ha1 Ho) as (rule & Hin & Herr & Hfail).
    exists rule. split_and!; [|done..]. by apply rule_in_conditional.
Qed.

Lemma error_message_comes_from_failing_rule_witness :
  ∃ rule,
    rule_in "name" rule (notBlank "name" "N" NoopInputFormValidator)
    ∧ error rule = "N"
    ∧ validate rule (get_field (object 0 [("name", JString (js ""))]) "name")
        (object 0 [("name", JString (js ""))]) = Normal false.
Proof.
  apply (error_message_comes_from_failing_rule
           (notBlank "name" "N" NoopInputFormValidator)
           (object 0 [("name", JString (js ""))]) {["name" := Some "N"]} "name" "N").
  - reflexivity.
  - reflexivity.
Defined.

(* ===================================================================== *)
(** ** What the built-in rules accept *)
(* ===================================================================== *)

(** On a field the chain below accepts, the verdict is the rule's. *)
Lemma isFieldValid_rule (this : InputFormValidator) (field : string)
    (rule : InputFieldValidator) (value : FormValue) :
  isFieldValid this field value = Normal true →
  isFieldValid (ChildInputFormValidator field rule this) field value
  = validate rule (get_field value field) value.
Proof. intros H. simpl. rewrite H. simpl. by rewrite bool_decide_eq_true_2. Qed.

Lemma num_leb_Finite (p q : Q) : num_leb (Finite p) (Finite q) = true ↔ (p <= q)%Q.
Proof.
  simpl. rewrite orb_true_iff, andb_true_iff, negb_true_iff, Qeq_bool_iff, Qle_bool_iff.
  split.
  - intros [[H _]|H]; [done|]. rewrite H. apply Qle_refl.
  - intros H. destruct (Qeq_bool p q) eqn:Heq; [right; by apply Qeq_bool_iff|left; done].
Qed.

Lemma num_leb_nat (a b : nat) :
  num_leb (num_of_nat a) (num_of_nat b) = true ↔ (a ≤ b)%nat.
Proof.
  unfold num_of_nat. rewrite num_leb_Finite, <- Zle_Qle. lia.
Qed.

Lemma num_eqb_nat (a b : nat) :
  num_eqb (num_of_nat a) (num_of_nat b) = true ↔ a = b.
Proof.
  unfold num_of_nat. simpl. rewrite Qeq_bool_iff, inject_Z_injective. lia.
Qed.

Lemma num_ltb_nat (a b : nat) :
  num_ltb (num_of_nat a) (num_of_nat b) = true ↔ (a < b)%nat.
Proof.
  unfold num_of_nat. simpl.
  rewrite andb_true_iff, negb_true_iff, Qle_bool_iff, <- Zle_Qle.
  rewrite <- not_true_iff_false, Qeq_bool_iff, inject_Z_injective. lia.
Qed.

Lemma trimStart_nil_iff (s : JsString) :
  trimStart s = [] ↔ Forall (fun c => isWhiteSpace c = true) s.
Proof.
  split; [|apply trimStart_whitespace].
  induction s as [|c s IH]; simpl; [constructor|].
  destruct (isWhiteSpace c) eqn:Hc; [|done]. intros H. constructor; auto.
Qed.

Lemma trimStart_whitespace_inv (s : JsString) :
  Forall (fun c => isWhiteSpace c = true) (trimStart s) → trimStart s = [].
Proof.
  induction s as [|c s IH]; simpl; [done|].
  destruct (isWhiteSpace c) eqn:Hc; [done|].
  intros H. apply Forall_cons in H as [H _]. congruence.
Qed.

Lemma trim_nil_iff (s : JsString) :
  trim s = [] ↔ Forall (fun c => isWhiteSpace c = true) s.
Proof.
  split; [|apply trim_whitespace].
  unfold trim, trimEnd. intros H.
  apply (f_equal (@rev N)) in H. rewrite rev_involutive in H. simpl in H.
  apply trimStart_nil_iff in H. apply Forall_rev in H. rewrite rev_involutive in H.
  by apply trimStart_nil_iff, trimStart_whitespace_inv.
Qed.

(** X9. On a field the chain below accepts, the [notBlank] rule accepts
    exactly the strings that hold a code unit that is not white space; the
    empty string, white space only, [undefined] and values that are not
    strings are rejected. *)
Theorem notBlank_accepts (this : InputFormValidator) (field error : string)
    (value : FormValue) :
  isFieldValid this field value = Normal true →
  ∃ valid,
    isFieldValid (notBlank field error this) field value = Normal valid
    ∧ (valid = true
       ↔ ∃ s, get_field value field = JString s
              ∧ Exists (fun c => isWhiteSpace c = false) s).
Proof.
  intros Hparent. unfold notBlank, appendStringValidator, appendFieldValidator.
  rewrite (isFieldValid_rule _ _ _ _ Hparent). simpl.
  destruct (get_field value field) as [| | | |s| | |];
    try (exists false; split; [done|]; split; [done|]; by intros (s' & [=] & _)).
  eexists. split; [reflexivity|].
  unfold str_eqb. rewrite negb_true_iff, bool_decide_eq_false, trim_nil_iff.
  rewrite <- Exists_Forall_neg by (intros c; destruct (isWhiteSpace c); auto).
  split.
  - intros H. exists s. split; [done|].
    eapply Exists_impl; [exact H|]. intros c Hc. simpl in Hc. by destruct (isWhiteSpace c).
  - intros (s' & [= <-] & H).
    eapply Exists_impl; [exact H|]. intros c Hc. simpl in Hc. by rewrite Hc.
Qed.

Lemma notBlank_accepts_witness :
  ∃ valid,
    isFieldValid (notBlank "name" "N" NoopInputFormValidator) "name"
      (object 0 [("name", JString (js " Bob "))]) = Normal valid
    ∧ (valid = true
       ↔ ∃ s, get_field (object 0 [("name", JString (js " Bob "))]) "name" = JString s
              ∧ Exists (fun c => isWhiteSpace c = false) s).
Proof.
  apply (notBlank_accepts NoopInputFormValidator "name" "N"
           (object 0 [("name", JString (js " Bob "))])).
  reflexivity.
Defined.

(** X10. With a natural number as bound and on a field the chain below
    accepts, [minLength] accepts exactly the strings of at least that many
    code units, [maxLength] those of at most that many and [hasLength] those
    of exactly that many. *)
Theorem length_rules_accept (this : InputFormValidator) (field error : string)
    (bound : nat) (value : FormValue) :
  isFieldValid this field value = Normal true →
  (isFieldValid (minLength field error (num_of_nat bound) this) field value = Normal true
   ↔ ∃ s, get_field value field = JString s ∧ (bound ≤ length s)%nat)
  ∧ (isFieldValid (maxLength field error (num_of_nat bound) this) field value = Normal true
     ↔ ∃ s, get_field value field = JString s ∧ (length s ≤ bound)%nat)
  ∧ (isFieldValid (hasLength field error (num_of_nat bound) this) field value = Normal true
     ↔ ∃ s, get_field value field = JString s ∧ length s = bound).
Proof.
  intros Hparent.
  unfold minLength, maxLength, hasLength, appendStringValidator, appendFieldValidator.
  rewrite !(isFieldValid_rule _ _ _ _ Hparent). simpl.
  destruct (get_field value field) as [| | | |s| | |];
    try (split_and!; (split; [done|by intros (s' & [=] & _)])).
  split_and!.
  - split.
    + intros [= H]. exists s. split; [done|]. by apply num_leb_nat.
    + intros (s' & [= <-] & H). f_equal. by apply num_leb_nat.
  - split.
    + intros [= H]. exists s. split; [done|]. by apply num_leb_nat.
    + intros (s' & [= <-] & H). f_equal. by apply num_leb_nat.
  - split.
    + intros [= H]. exists s. split; [done|]. by apply num_eqb_nat.
    + intros (s' & [= <-] & H). f_equal. by apply num_eqb_nat.
Qed.

Lemma length_rules_accept_witness :
  isFieldValid (minLength "name" "Too short" (num_of_nat 3) NoopInputFormValidator)
    "name" (object 0 [("name", JString (js "abc"))]) = Normal true
  ↔ ∃ s, get_field (object 0 [("name", JString (js "abc"))]) "name" = JString s
         ∧ (3 ≤ length s)%nat.
Proof.
  apply (length_rules_accept NoopInputFormValidator "name" "Too short" 3
           (object 0 [("name", JString (js "abc"))])).
  reflexivity.
Defined.

Lemma num_eqb_leb (a b : JsNumber) :
  num_eqb a b = num_leb b a && num_leb a b.
Proof.
  destruct a as [| | |p], b as [| | |q]; try reflexivity.
  apply eq_true_iff_eq.
  rewrite andb_true_iff, !num_leb_Finite. simpl. rewrite Qeq_bool_iff. split.
  - intros ->. split; apply Qle_refl.
  - intros [H1 H2]. by apply Qle_antisym.
Qed.

(** X11. For every bound, a number of any kind (NaN, an infinity, a
    fraction), and every chain and form value, [hasLength] accepts a
    field exactly when [minLength] and [maxLength] with the same bound both
    accept it. *)
Theorem hasLength_is_min_and_max (this : InputFormValidator) (field error : string)
    (bound : JsNumber) (value : FormValue) :
  isFieldValid (hasLength field error bound this) field value = Normal true
  ↔ isFieldValid (minLength field error bound this) field value = Normal true
    ∧ isFieldValid (maxLength field error bound this) field value = Normal true.
Proof.
  unfold minLength, maxLength, hasLength, appendStringValidator, appendFieldValidator.
  destruct (isFieldValid this field value) as [[|]|e] eqn:Hparent.
  - rewrite !(isFieldValid_rule _ _ _ _ Hparent). cbn [validate].
    destruct (get_field value field) as [| | | |s| | |];
      try (split; [done|by intros [[=] _]]).
    unfold mret, Completion_ret. rewrite num_eqb_leb.
    destruct (num_leb bound _), (num_leb _ bound); simpl;
      split; try done; by intros [[=] [=]].
  - cbn [isFieldValid]. rewrite Hparent. simpl. split; [done|by intros [[=] _]].
  - cbn [isFieldValid]. rewrite Hparent. simpl. split; [done|by intros [[=] _]].
Qed.

(** X12. On a field the chain below accepts, [isInteger] accepts exactly the
    numbers equal to their floor: the finite numbers with an integer value
    and the two infinities; NaN, fractions and values that are not numbers
    are rejected. *)
Theorem isInteger_accepts (this : InputFormValidator) (field error : string)
    (value : FormValue) :
  isFieldValid this field value = Normal true →
  (isFieldValid (isInteger field error this) field value = Normal true
   ↔ ∃ n, get_field value field = JNumber n
          ∧ (n = PosInfinity ∨ n = NegInfinity
             ∨ ∃ q z, n = Finite q ∧ (q == inject_Z z)%Q)).
Proof.
  intros Hparent. unfold isInteger, appendNumberValidator, appendFieldValidator.
  rewrite (isFieldValid_rule _ _ _ _ Hparent). simpl.
  destruct (get_field value field) as [| | |n| | | |];
    try (split; [done|by intros (n' & [=] & _)]).
  destruct n as [| | |q]; simpl.
  - split; [done|]. intros (n & [= <-] & [H|[H|(q & z & H & _)]]); done.
  - split; [|done]. intros _. exists PosInfinity. auto.
  - split; [|done]. intros _. exists NegInfinity. auto.
  - split.
    + intros [= H%Qeq_bool_iff]. exists (Finite q). split; [done|]. do 2 right. eauto.
    + intros (n & [= <-] & [H|[H|(q' & z & [= <-] & Hz)]]); [done..|].
      f_equal. apply Qeq_bool_iff. rewrite Hz at 2. by rewrite Qfloor_Z.
Qed.

Lemma isInteger_accepts_witness :
  isFieldValid (isInteger "age" "A" NoopInputFormValidator) "age"
    (object 0 [("age", JNumber PosInfinity)]) = Normal true
  ↔ ∃ n, get_field (object 0 [("age", JNumber PosInfinity)]) "age" = JNumber n
         ∧ (n = PosInfinity ∨ n = NegInfinity
            ∨ ∃ q z, n = Finite q ∧ (q == inject_Z z)%Q).
Proof.
  apply (isInteger_accepts NoopInputFormValidator "age" "A"
           (object 0 [("age", JNumber PosInfinity)])).
  reflexivity.
Defined.

(** X13. On a field the chain below accepts, [notEmpty] accepts exactly the
    arrays with at least one item, and [isPositive] exactly the numbers above
    zero, the positive infinity included; an empty array, zero, NaN,
    [undefined] and values of another shape are rejected. *)
Theorem notEmpty_and_isPositive_accept (this : InputFormValidator)
    (field error : string) (value : FormValue) :
  isFieldValid this field value = Normal true →
  (isFieldValid (notEmpty field error this) field value = Normal true
   ↔ ∃ id items, get_field value field = JArray id items ∧ items ≠ [])
  ∧ (isFieldValid (isPositive field error this) field value = Normal true
     ↔ ∃ n, get_field value field = JNumber n
            ∧ (n = PosInfinity ∨ ∃ q, n = Finite q ∧ (0 < q)%Q)).
Proof.
  intros Hparent.
  unfold notEmpty, isPositive, greaterThan, appendNumberValidator, appendFieldValidator.
  rewrite !(isFieldValid_rule _ _ _ _ Hparent). simpl. split.
  - destruct (get_field value field) as [| | | | |id items| |];
      try (split; [done|by intros (? & ? & [=] & _)]).
    simpl. split.
    + intros [= H]. exists id, items. split; [done|]. by destruct items.
    + intros (id' & items' & [= <- <-] & H). by destruct items.
  - destruct (get_field value field) as [| | |n| | | |];
      try (split; [done|by intros (? & [=] & _)]).
    destruct n as [| | |q]; simpl.
    + split; [done|]. intros (n & [= <-] & [H|(q & H & _)]); done.
    + split; [|done]. intros _. exists PosInfinity. auto.
    + split; [done|]. intros (n & [= <-] & [H|(q & H & _)]); done.
    + split.
      * intros [= H]. apply andb_true_iff in H as [Hle Hne%negb_true_iff].
        exists (Finite q). split; [done|]. right. exists q. split; [done|].
        apply Qle_bool_iff in Hle. apply Qle_lteq in Hle as [H|H]; [done|].
        apply Qeq_bool_iff in H. unfold num_of_nat in Hne. simpl in Hne. congruence.
      * intros (n & [= <-] & [H|(q' & [= <-] & Hq)]); [done|]. f_equal.
        apply andb_true_iff. split.
        -- apply Qle_bool_iff. by apply Qlt_le_weak.
        -- apply negb_true_iff, not_true_iff_false. intros H%Qeq_bool_iff.
           rewrite <- H in Hq. by apply Qlt_irrefl in Hq.
Qed.

Lemma notEmpty_and_isPositive_accept_witness :
  isFieldValid (notEmpty "tags" "T" NoopInputFormValidator) "tags"
    (object 0 [("tags", JArray 1 [JNull])]) = Normal true
  ↔ ∃ id items,
      get_field (object 0 [("tags", JArray 1 [JNull])]) "tags" = JArray id items
      ∧ items ≠ [].
Proof.
  apply (notEmpty_and_isPositive_accept NoopInputFormValidator "tags" "T"
           (object 0 [("tags", JArray 1 [JNull])])).
  reflexivity.
Defined.

(* ===================================================================== *)
(** ** Further properties of the accessors *)
(* ===================================================================== *)

Lemma run_markAsTouched_proxy (st : HookState) (this : HandlerArgs) (name : string) :
  st_value (run st (markAsTouched (ProxyField this name))) = st_value st
  ∧ st_touchedFields (run st (markAsTouched (ProxyField this name)))
    = if includes (touchedFields this) name then st_touchedFields st
      else touchedFields this ++ [name].
Proof. simpl. by destruct (includes (touchedFields this) name). Qed.

(** X14. [markAsTouched] and [setValue] (with any value) on an accessor of
    the current projection mark the field as touched: its name is added at
    the end of the touched sequence unless it is there, the fields touched
    before keep their places, no name gets in twice, and the accessor of the
    rebuilt projection answers [isTouched()] with true.  [markAsTouched]
    leaves the form value alone and, on a touched field, calls no setter. *)
Theorem touching_marks_the_field (st : HookState) (errors errors' : ErrorMap)
    (this : InputFormFieldsHandler) (name : string) (field : InputFormField)
    (calls : list SinkCall) :
  handler_reaches (hook_fields st errors) this →
  (get this (KeyString name)).1 = Some field →
  calls = markAsTouched field ∨ (∃ fieldValue, calls = setValue field fieldValue) →
  st_touchedFields (run st calls) = push_absent (st_touchedFields st) name
  ∧ st_touchedFields st `prefix_of` st_touchedFields (run st calls)
  ∧ (∀ other, other ∈ st_touchedFields (run st calls)
              ↔ other ∈ st_touchedFields st ∨ other = name)
  ∧ (NoDup (st_touchedFields st) → NoDup (st_touchedFields (run st calls)))
  ∧ (∀ field', (get (hook_fields (run st calls) errors') (KeyString name)).1 = Some field' →
               isTouched field' = true)
  ∧ (calls = markAsTouched field →
     st_value (run st calls) = st_value st
     ∧ (name ∈ st_touchedFields st → calls = [])).
Proof.
  intros Hreach Hget Hcalls.
  rewrite (projection_accessor _ _ _ _ _ _ Hreach Hget) in Hcalls |- *.
  assert (Htouched : st_touchedFields (run st calls)
                     = push_absent (st_touchedFields st) name).
  { destruct Hcalls as [->|[fieldValue ->]].
    - by rewrite (proj2 (run_markAsTouched_proxy _ _ _)).
    - by rewrite (proj2 (run_setValue_proxy _ _ _ _)). }
  split_and!.
  - done.
  - rewrite Htouched. apply prefix_push_absent.
  - intros other. rewrite Htouched. apply elem_of_push_absent.
  - rewrite Htouched. apply NoDup_push_absent.
  - intros field' Hfield'. unfold hook_fields in Hfield'.
    rewrite (projection_accessor _ _ _ _ _ _ (reaches_here _) Hfield').
    cbn [isTouched touchedFields]. apply includes_true.
    rewrite Htouched. apply elem_of_push_absent. by right.
  - intros ->. split.
    + apply run_markAsTouched_proxy.
    + intros Hin. simpl. by rewrite (proj2 (includes_true _ _) Hin).
Qed.

Lemma touching_marks_the_field_witness :
  st_touchedFields
    (run {| st_value := object 0 [("name", JString (js "a"))];
            st_touchedFields := ["mail"]; st_fresh := 1 |}
       (markAsTouched
          (ProxyField {| formValue := object 0 [("name", JString (js "a"))];
                         touchedFields := ["mail"]; errors := ∅ |} "name")))
  = push_absent ["mail"] "name".
Proof.
  apply (touching_marks_the_field
           {| st_value := object 0 [("name", JString (js "a"))];
              st_touchedFields := ["mail"]; st_fresh := 1 |} ∅ ∅
           (hook_fields {| st_value := object 0 [("name", JString (js "a"))];
                           st_touchedFields := ["mail"]; st_fresh := 1 |} ∅)
           "name"
           (ProxyField {| formValue := object 0 [("name", JString (js "a"))];
                          touchedFields := ["mail"]; errors := ∅ |} "name")).
  - apply reaches_here.
  - reflexivity.
  - left. reflexivity.
Defined.

(** X15. In a state whose next object identity is not the identity of the
    object it holds, [setValue] with a value that is not strictly equal to the
    current one puts a new object in the state: its identity is not the one
    of the previous object, it holds the value under the field's name and it
    has every other property of the previous object.  With any value, the
    other properties are read as before, and the next object identity is
    again not the one of the object the state holds. *)
Theorem setValue_replaces_one_property (st : HookState) (this : HandlerArgs)
    (name : string) (fieldValue : JsValue) :
  identity_ahead st →
  (∀ other, other ≠ name →
     get_field (st_value (run st (setValue (ProxyField this name) fieldValue))) other
     = get_field (st_value st) other)
  ∧ identity_ahead (run st (setValue (ProxyField this name) fieldValue))
  ∧ (strict_equals (get_field (st_value st) name) fieldValue = false →
     obj_id (st_value (run st (setValue (ProxyField this name) fieldValue)))
     ≠ obj_id (st_value st)
     ∧ obj_id (st_value (run st (setValue (ProxyField this name) fieldValue))) = st_fresh st
     ∧ get_field (st_value (run st (setValue (ProxyField this name) fieldValue))) name
       = fieldValue
     ∧ obj_props (st_value (run st (setValue (ProxyField this name) fieldValue)))
       = <[name := fieldValue]> (obj_props (st_value st))).
Proof.
  unfold identity_ahead. intros Hahead.
  assert (Hfresh : st_fresh (run st (setValue (ProxyField this name) fieldValue))
                   = N.succ (st_fresh st)).
  { simpl. by destruct (includes (touchedFields this) name). }
  rewrite Hfresh.
  rewrite (proj1 (run_setValue_proxy st this name fieldValue)).
  unfold setValue_update. split_and!.
  - intros other Hne. destruct (strict_equals _ _); [done|].
    unfold get_field. simpl. by rewrite lookup_insert_ne.
  - destruct (strict_equals _ _); simpl; lia.
  - intros ->. simpl. split_and!; [lia|done| |done].
    unfold get_field. simpl. by rewrite lookup_insert_eq.
Qed.

Lemma setValue_replaces_one_property_witness :
  obj_id (st_value
            (run {| st_value := object 0 [("name", JString (js "a"))];
                    st_touchedFields := []; st_fresh := 1 |}
               (setValue
                  (ProxyField {| formValue := object 0 [("name", JString (js "a"))];
                                 touchedFields := []; errors := ∅ |} "name")
                  (JString (js "b")))))
  ≠ 0%N.
Proof.
  pose proof (setValue_replaces_one_property
                {| st_value := object 0 [("name", JString (js "a"))];
                   st_touchedFields := []; st_fresh := 1 |}
                {| formValue := object 0 [("name", JString (js "a"))];
                   touchedFields := []; errors := ∅ |}
                "name" (JString (js "b"))) as H.
  refine (proj1 (proj2 (proj2 (H _)) _)).
  - reflexivity.
  - reflexivity.
Defined.

(** X16. For every accessor, mapped any number of times or not,
    [isShowError()] is [isTouched() && isInvalid()], [isValid()] is the
    negation of [isInvalid()], and there is an error message only on an
    invalid field. *)
Theorem accessor_status_consistent (field : InputFormField) :
  isShowError field = isTouched field && isInvalid field
  ∧ isValid field = negb (isInvalid field)
  ∧ (is_Some (getErrorMessage field) → isInvalid field = true).
Proof.
  induction field as [this name|delegate IH mapper inverseMapper]; simpl; [|done].
  split_and!.
  - done.
  - by repeat case_bool_decide.
  - intros [message H]. repeat case_bool_decide; try done. congruence.
Qed.



(* ===================================================================== *)
(** ** Further properties of the form state *)
(* ===================================================================== *)

(** X18. [reset], after any calls of the setters, puts the initial value
    back as the form value (the object itself) and empties the touched
    sequence: the form is untouched, and in the rebuilt projection every
    accessor reads the initial value of its field, is not touched and shows no
    error, whatever the error map. *)
Theorem reset_restores_initial_state (st : HookState) (calls : list SinkCall)
    (initialValue : FormValue) (errors : ErrorMap) :
  st_value (run (run st calls) (reset initialValue)) = initialValue
  ∧ st_touchedFields (run (run st calls) (reset initialValue)) = []
  ∧ untouched (st_touchedFields (run (run st calls) (reset initialValue))) = true
  ∧ showsAnyErrors errors (st_touchedFields (run (run st calls) (reset initialValue)))
    = false
  ∧ ∀ name field,
      (get (hook_fields (run (run st calls) (reset initialValue)) errors)
         (KeyString name)).1 = Some field →
      getValue field = Value (get_field initialValue name)
      ∧ isTouched field = false
      ∧ isShowError field = false.
Proof.
  split_and!; try done.
  - cbn [run reset foldl dispatch st_touchedFields]. unfold showsAnyErrors.
    apply not_true_iff_false. intros (field & _ & H)%existsb_exists.
    apply andb_true_iff in H as [_ H%includes_true]. by apply elem_of_nil in H.
  - intros name field Hfield. unfold hook_fields in Hfield.
    rewrite (projection_accessor _ _ _ _ _ _ (reaches_here _) Hfield).
    simpl. by split_and!.
Qed.

Lemma touchValidatedFields_touched (validatedFields touchedFields : list string)
    (st : HookState) :
  st_touchedFields st = touchedFields →
  st_touchedFields (run st (touchValidatedFields validatedFields touchedFields))
  = (touchedFields
     ++ filter (fun field => ¬ includes touchedFields field) validatedFields)
  ∧ st_value (run st (touchValidatedFields validatedFields touchedFields)) = st_value st.
Proof.
  intros Hst. unfold touchValidatedFields. case_bool_decide as Hempty; simpl.
  - apply nil_length_inv in Hempty. rewrite Hempty, app_nil_r. done.
  - done.
Qed.

Lemma elem_of_untouched (validatedFields touchedFields : list string) (field : string) :
  field ∈ filter (fun field => ¬ includes touchedFields field) validatedFields
  ↔ (field ∉ touchedFields) ∧ field ∈ validatedFields.
Proof.
  rewrite list_elem_of_filter. split.
  - intros [H ?]. split; [|done]. intros Hin. apply H, Is_true_true.
    by apply includes_true.
  - intros [H ?]. split; [|done]. intros Hin%Is_true_true%includes_true. done.
Qed.

(** X19. [touchValidatedFields] marks every field of the validator's
    [getValidatedFields()] as touched: the touched sequence keeps its
    elements in place and gets the validated fields that were missing, in the
    validator's order and without duplicates; the form value is not changed,
    and a second call finds nothing to touch and calls no setter. *)
Theorem touchValidatedFields_touches_all (chain : InputFormValidator) (st : HookState) :
  (∀ field, field ∈ st_touchedFields
                      (run st (touchValidatedFields (getValidatedFields chain)
                                 (st_touchedFields st)))
            ↔ field ∈ st_touchedFields st ∨ field ∈ getValidatedFields chain)
  ∧ st_touchedFields st
    `prefix_of` st_touchedFields
                  (run st (touchValidatedFields (getValidatedFields chain)
                             (st_touchedFields st)))
  ∧ (NoDup (st_touchedFields st) →
     NoDup (st_touchedFields
              (run st (touchValidatedFields (getValidatedFields chain)
                         (st_touchedFields st)))))
  ∧ st_value (run st (touchValidatedFields (getValidatedFields chain)
                        (st_touchedFields st))) = st_value st
  ∧ touchValidatedFields (getValidatedFields chain)
      (st_touchedFields
         (run st (touchValidatedFields (getValidatedFields chain)
                    (st_touchedFields st)))) = [].
Proof.
  destruct (touchValidatedFields_touched (getValidatedFields chain)
              (st_touchedFields st) st eq_refl) as [-> ->].
  split_and!.
  - intros field. rewrite elem_of_app, elem_of_untouched.
    destruct (decide (field ∈ st_touchedFields st)); tauto.
  - by apply prefix_app_r.
  - intros Hnd. apply NoDup_app. split_and!; [done| |].
    + intros field Hin [Hnin _]%elem_of_untouched. done.
    + apply NoDup_filter, NoDup_getValidatedFields.
  - done.
  - unfold touchValidatedFields. rewrite bool_decide_eq_true_2; [done|].
    apply length_zero_iff_nil, elem_of_nil_inv.
    intros field [Hnin Hin]%elem_of_untouched. apply Hnin.
    rewrite elem_of_app, elem_of_untouched.
    destruct (decide (field ∈ st_touchedFields st)); tauto.
Qed.

Lemma showsAnyErrors_iff (errors : ErrorMap) (touchedFields : list string) :
  showsAnyErrors errors touchedFields = true
  ↔ ∃ field message, errors !! field = Some (Some message) ∧ field ∈ touchedFields.
Proof.
  unfold showsAnyErrors. rewrite existsb_exists. split.
  - intros (field & _ & H). apply andb_true_iff in H as [H Hin%includes_true].
    apply bool_decide_eq_true in H. unfold get_error in H.
    destruct (errors !! field) as [[message|]|] eqn:Hfield; simpl in H; [|done..].
    eauto.
  - intros (field & message & Hfield & Hin). exists field. split.
    + apply list_elem_of_In, elem_of_keysOf. eauto.
    + apply andb_true_iff. split; [|by apply includes_true].
      apply bool_decide_eq_true. unfold get_error. by rewrite Hfield.
Qed.

(** X20. [showsAnyErrors] is true exactly when some accessor of the
    projection answers [isShowError()] with true, that is when a touched field
    has an error entry; so it implies [invalid], and an untouched form shows
    no error. *)
Theorem showsAnyErrors_iff_some_field_shows (formValue : FormValue)
    (touchedFields : list string) (errors : ErrorMap) :
  (showsAnyErrors errors touchedFields = true
   ↔ ∃ name field,
       (get (createInputFormFields formValue touchedFields errors) (KeyString name)).1
       = Some field
       ∧ isShowError field = true)
  ∧ (showsAnyErrors errors touchedFields = true → invalid errors = true)
  ∧ (untouched touchedFields = true → showsAnyErrors errors touchedFields = false).
Proof.
  assert (Hshow : ∀ name,
             isShowError (ProxyField {| formValue := formValue;
                                        touchedFields := touchedFields;
                                        errors := errors |} name) = true
             ↔ ∃ message, errors !! name = Some (Some message) ∧ name ∈ touchedFields).
  { intros name. simpl.
    rewrite andb_true_iff, includes_true, bool_decide_eq_true. unfold get_error. split.
    - intros [Hin H]. destruct (errors !! name) as [[message|]|]; simpl in H; [|done..].
      eauto.
    - intros (message & -> & Hin). done. }
  split_and!.
  - rewrite showsAnyErrors_iff. split.
    + intros (name & message & Hentry & Hin).
      destruct (get_cached (createInputFormFields formValue touchedFields errors) name)
        as [Heq [field Hfield]].
      rewrite <- Heq in Hfield. exists name, field. split; [done|].
      rewrite (projection_accessor _ _ _ _ _ _ (reaches_here _) Hfield).
      apply Hshow. eauto.
    + intros (name & field & Hget & Hfield).
      rewrite (projection_accessor _ _ _ _ _ _ (reaches_here _) Hget) in Hfield.
      apply Hshow in Hfield as (message & ? & ?). eauto.
  - intros (field & message & Hentry & _)%showsAnyErrors_iff.
    unfold invalid. rewrite bool_decide_eq_true, find_error_iff. eauto.
  - intros Hun%bool_decide_eq_true%nil_length_inv. subst touchedFields.
    apply not_true_iff_false. intros (field & message & _ & Hin)%showsAnyErrors_iff.
    by apply elem_of_nil in Hin.
Qed.

Lemma elem_of_touched_after (validatedFields touchedFields : list Keyed.FieldName)
    (x : Keyed.FieldName) :
  x ∈ Keyed.touched_after validatedFields touchedFields
  ↔ x ∈ touchedFields ∨ x ∈ validatedFields.
Proof.
  assert (Hfilter : x ∈ filter (fun field => ¬ Keyed.includes_name touchedFields field)
                          validatedFields
                    ↔ (x ∉ touchedFields) ∧ x ∈ validatedFields).
  { rewrite list_elem_of_filter. split.
    - intros [H ?]. split; [|done]. intros Hin. apply H, Is_true_true.
      by apply includes_name_true.
    - intros [H ?]. split; [|done]. intros Hin%Is_true_true%includes_name_true. done. }
  unfold Keyed.touched_after, Keyed.touchValidatedFields.
  case_bool_decide as Hempty; simpl.
  - apply nil_length_inv in Hempty. rewrite Hempty in Hfilter.
    split; [auto|]. intros [?|Hin]; [done|].
    destruct (Keyed.includes_name touchedFields x) eqn:Htouched.
    + by apply includes_name_true.
    + apply includes_name_false in Htouched.
      exfalso. eapply elem_of_nil, Hfilter. eauto.
  - rewrite elem_of_app, Hfilter.
    destruct (Keyed.includes_name touchedFields x) eqn:Htouched.
    + apply includes_name_true in Htouched. tauto.
    + apply includes_name_false in Htouched. tauto.
Qed.

Lemma keyed_showsAnyErrors_iff (errors : ErrorMap) (touchedFields : list Keyed.FieldName) :
  Keyed.showsAnyErrors errors touchedFields = true
  ↔ ∃ field message, errors !! field = Some (Some message)
                     ∧ Keyed.NameString field ∈ touchedFields.
Proof.
  unfold Keyed.showsAnyErrors. rewrite existsb_exists. split.
  - intros (field & _ & H). apply andb_true_iff in H as [H Hin%includes_name_true].
    apply bool_decide_eq_true in H. unfold get_error in H.
    destruct (errors !! field) as [[message|]|] eqn:Hfield; simpl in H; [|done..].
    eauto.
  - intros (field & message & Hfield & Hin). exists field. split.
    + apply list_elem_of_In, elem_of_keysOf. eauto.
    + apply andb_true_iff. split; [|by apply includes_name_true].
      apply bool_decide_eq_true. unfold get_error. by rewrite Hfield.
Qed.

(** X21. For a validator whose field names are all strings: once
    [touchValidatedFields] has run, the form shows an error exactly when it
    is invalid, that is, for the error map computed by the validator,
    [showsAnyErrors] on the new touched array equals [invalid], whatever had
    been touched before. *)
Theorem touched_form_shows_its_errors (chain : Keyed.InputFormValidator)
    (value : FormValue) (touchedFields : list Keyed.FieldName) (errs : ErrorMap) :
  Keyed.string_named chain →
  Keyed.getFieldErrors chain value = Normal errs →
  Keyed.showsAnyErrors errs
    (Keyed.touched_after (Keyed.getValidatedFields chain) touchedFields)
  = invalid errs.
Proof.
  intros [this ->]%string_named_embed Herrs.
  rewrite embed_getFieldErrors in Herrs. rewrite embed_getValidatedFields.
  apply eq_true_iff_eq. rewrite keyed_showsAnyErrors_iff.
  unfold invalid. rewrite bool_decide_eq_true, find_error_iff. split.
  - intros (field & message & Hentry & _). eauto.
  - intros (field & message & Hentry). exists field, message. split; [done|].
    assert (Hval : field ∈ getValidatedFields this).
    { eapply getFieldErrors_keys; eauto. }
    apply elem_of_touched_after. right. apply list_elem_of_fmap. eauto.
Qed.

Lemma touched_form_shows_its_errors_witness :
  Keyed.showsAnyErrors {["name" := Some "N"]}
    (Keyed.touched_after
       (Keyed.getValidatedFields
          (Keyed.notBlank (Keyed.NameString "name") "N" Keyed.NoopInputFormValidator))
       [])
  = invalid {["name" := Some "N"]}.
Proof.
  apply (touched_form_shows_its_errors
           (Keyed.notBlank (Keyed.NameString "name") "N" Keyed.NoopInputFormValidator)
           (object 0 [("name", JString (js ""))]) [] {["name" := Some "N"]}).
  - simpl. split; [|exact I]. eexists. reflexivity.
  - reflexivity.
Defined.

(** On a field named by a number the errors stay hidden: the field is
    touched under its number, and looked up under the string of its entry in
    the error map. *)
Lemma numeric_field_errors_stay_hidden :
  Keyed.getFieldErrors
    (Keyed.notBlank (Keyed.NameNumber 0) "Required" Keyed.NoopInputFormValidator)
    (object 0 [("0", JString (js ""))])
  = Normal {["0" := Some "Required"]}
  ∧ Keyed.touched_after
      (Keyed.getValidatedFields
         (Keyed.notBlank (Keyed.NameNumber 0) "Required" Keyed.NoopInputFormValidator))
      []
    = [Keyed.NameNumber 0]
  ∧ Keyed.showsAnyErrors {["0" := Some "Required"]} [Keyed.NameNumber 0] = false
  ∧ invalid {["0" := Some "Required"]} = true.
Proof. split_and!; reflexivity. Qed.

(** X22. A rule appended by [requireWithNoError], and by
    [notUndefinedWithNoError] on an [undefined] field, that fails on a field
    without an entry records the empty string for it: the field's accessor
    is invalid and has no message to show. *)
Theorem no_error_rules_record_empty_message (this : InputFormValidator) (field : string)
    (validate : JsValue → FormValue → Completion bool) (value : FormValue)
    (errs0 : ErrorMap) (formValue : FormValue) (touchedFields : list string) :
  getFieldErrors this value = Normal errs0 → errs0 !! field = None →
  (validate (get_field value field) value = Normal false →
   getFieldErrors (requireWithNoError field validate this) value
   = Normal (<[field := Some ""]> errs0))
  ∧ (get_field value field = JUndefined →
     getFieldErrors (notUndefinedWithNoError field this) value
     = Normal (<[field := Some ""]> errs0))
  ∧ isInvalid (ProxyField {| formValue := formValue; touchedFields := touchedFields;
                             errors := <[field := Some ""]> errs0 |} field) = true
  ∧ getErrorMessage (ProxyField {| formValue := formValue; touchedFields := touchedFields;
                                   errors := <[field := Some ""]> errs0 |} field) = None.
Proof.
  intros Herrs Hnone. split_and!.
  - intros Hfail. unfold requireWithNoError, appendFieldValidator.
    by apply (getFieldErrors_failing_rule this field
                {| error := ""; validate := validate |}).
  - intros Hundef. unfold notUndefinedWithNoError, notUndefined, appendFieldValidator.
    apply (getFieldErrors_failing_rule this field
             {| error := "";
                validate := fun fieldValue _ =>
                  mret (negb (strict_equals fieldValue JUndefined)) |}); [done..|].
    simpl. by rewrite Hundef.
  - simpl. unfold get_error. by rewrite lookup_insert_eq.
  - simpl. unfold get_error. by rewrite lookup_insert_eq.
Qed.

Lemma no_error_rules_record_empty_message_witness :
  getFieldErrors (notUndefinedWithNoError "demo" NoopInputFormValidator)
    (object 0 [("demo", JUndefined)]) = Normal (<["demo" := Some ""]> ∅).
Proof.
  apply (no_error_rules_record_empty_message NoopInputFormValidator "demo"
           (fun _ _ => mret true) (object 0 [("demo", JUndefined)]) ∅
           (object 0 [("demo", JUndefined)]) []); reflexivity.
Defined.
